(** * Peru bot: the image archiver of [bot.py]

    A shallow embedding of the archiver of [bot.py]: the owner check, the
    image finder [find_latest_image], the polling loop [runner] and the
    [/archieved] command with its task registry [_active_archives].

    Python values are modelled as follows: [int] as [Z], [str] as [string],
    [bytes] as [list Byte.byte], [None]-or-value as [option], the dict
    [_active_archives] as a [gmap] from [(guild, user)] keys to task handles,
    and the event loop's tasks as a list indexed by task handle.  Coroutines
    are trees of operations ([coro]): every [await] of the source is a node
    whose answer (a value or a raised exception) comes from the environment. *)

From Stdlib Require Import ZArith String Ascii List Bool Lia.
From stdpp Require Import base option list gmap strings pretty.

Open Scope string_scope.
Open Scope list_scope.
Open Scope Z_scope.

(** ** Exceptions and outcomes *)

(** [asyncio.CancelledError] derives from [BaseException], every other error
    the code handles derives from [Exception]; [ex_type] is
    [type(e).__name__] and [ex_msg] is [str(e)]. *)
Inductive exn : Type :=
  | CancelledError
  | Exception (ex_type ex_msg : string).

Inductive result (A : Type) : Type :=
  | Ok (a : A)
  | Err (e : exn).
Arguments Ok {A} a.
Arguments Err {A} e.

(** ** Python truthiness of a string and of an optional string *)

Definition str_truthy (s : string) : bool :=
  match s with EmptyString => false | String _ _ => true end.

Definition opt_truthy (o : option string) : bool :=
  match o with None => false | Some s => str_truthy s end.

(** ** Coroutines

    An [async def] is a tree of operations.  An operation either acts on the
    program's own state or is awaited from the environment; both are answered
    with a [result], and [call] re-raises an error answer at the point of the
    call, where an enclosing [try_except] can catch it. *)

Inductive coro (E : Type -> Type) (A : Type) : Type :=
  | Ret (a : A)
  | Raise (e : exn)
  | Op {X : Type} (o : E X) (k : result X -> coro E A).
Arguments Ret {E A} a.
Arguments Raise {E A} e.
Arguments Op {E A X} o k.

Fixpoint coro_bind {E A B} (f : A -> coro E B) (c : coro E A) : coro E B :=
  match c with
  | Ret a => f a
  | Raise e => Raise e
  | Op o k => Op o (fun r => coro_bind f (k r))
  end.

#[global] Instance coro_ret {E} : MRet (coro E) := fun A a => Ret a.
#[global] Instance coro_mbind {E} : MBind (coro E) := fun A B f c => coro_bind f c.

(** [try: c  except ... as e: h e] *)
Fixpoint try_except {E A} (c : coro E A) (h : exn -> coro E A) : coro E A :=
  match c with
  | Ret a => Ret a
  | Raise e => h e
  | Op o k => Op o (fun r => try_except (k r) h)
  end.

Definition call {E X} (o : E X) : coro E X :=
  Op o (fun r => match r with Ok x => Ret x | Err e => Raise e end).

Section Run.
Context {E : Type -> Type} {S V : Type}.

(** How an operation acts: the new state, its answer, and what it logs. *)
Variable exec : forall X, E X -> S -> S * result X * list V.

(** Running a coroutine to its end, every await answered at once. *)
Fixpoint run {A} (c : coro E A) (s : S) : S * list V * result A :=
  match c with
  | Ret a => (s, [], Ok a)
  | Raise e => (s, [], Err e)
  | Op o k =>
      let '(s1, r, ev) := exec _ o s in
      let '(s2, tr, res) := run (k r) s1 in
      (s2, ev ++ tr, res)
  end.

(** The operations at which a coroutine is suspended. *)
Variable is_await : forall X, E X -> bool.

(** Running up to the next suspension point (or to the end). *)
Fixpoint run_sync {A} (c : coro E A) (s : S) : S * list V * coro E A :=
  match c with
  | Op o k =>
      if is_await _ o then (s, [], c)
      else
        let '(s1, r, ev) := exec _ o s in
        let '(s2, tr, c') := run_sync (k r) s1 in
        (s2, ev ++ tr, c')
  | _ => (s, [], c)
  end.

(** Resuming a suspended coroutine: its pending operation is answered and
    it runs up to its next suspension point. *)
Definition resume {A} (c : coro E A) (s : S) : S * list V * coro E A :=
  match c with
  | Op o k =>
      let '(s1, r, ev) := exec _ o s in
      let '(s2, tr, c') := run_sync (k r) s1 in
      (s2, ev ++ tr, c')
  | _ => (s, [], c)
  end.
End Run.

(** ** The data model of the chat SDK, as far as [bot.py] reads it *)

Section Archiver.

(** The value of [msg.edited_at.timestamp()] is a Python float.  Its type and
    its rendering inside an f-string are taken as given. *)
Variable timestamp : Type.
Variable fmt_float : timestamp -> string.

Record attachment : Type := {
  content_type : option string;
  a_url : string
}.

(** [e.image] is an [EmbedProxy]: falsy when the embed has no image
    ([e_image = None]); its [url] attribute may be missing ([None]). *)
Record embed_image : Type := { i_url : option string }.
Record embed : Type := { e_image : option embed_image }.

Record message : Type := {
  m_id : Z;
  edited_at : option timestamp;
  attachments : list attachment;
  embeds : list embed
}.

(** A text channel: its messages, newest first. *)
Definition channel_log : Type := list message.

(** [channel.history(limit=n, oldest_first=False)] *)
Definition history (limit : nat) (ch : channel_log) : list message :=
  take limit ch.

(** ** Signatures *)

(** [edited = msg.edited_at.timestamp() if msg.edited_at else 0], rendered:
    the int [0] prints as ["0"], a float through [fmt_float]. *)
Definition fmt_edited (ed : option timestamp) : string :=
  match ed with
  | Some t => fmt_float t
  | None => "0"
  end.

(** [f"{msg.id}:{edited}:{url}"] *)
Definition make_sig (id : Z) (ed : option timestamp) (url : string) : string :=
  pretty id +:+ ":" +:+ fmt_edited ed +:+ ":" +:+ url.

(** ** The image finder *)

(** [(a.content_type or "").startswith("image/")] *)
Definition is_image_attachment (a : attachment) : bool :=
  String.prefix "image/" (default "" (content_type a)).

(** [e.image and e.image.url]: the URL when both are truthy. *)
Definition embed_image_url (e : embed) : option string :=
  match e_image e with
  | Some img =>
      match i_url img with
      | Some u => if str_truthy u then Some u else None
      | None => None
      end
  | None => None
  end.

(** [for a in msg.attachments: ...] with its early return. *)
Fixpoint scan_attachments (msg : message) (atts : list attachment)
  : option (string * string) :=
  match atts with
  | [] => None
  | a :: rest =>
      if is_image_attachment a
      then Some (make_sig (m_id msg) (edited_at msg) (a_url a), a_url a)
      else scan_attachments msg rest
  end.

(** [for e in msg.embeds: ...] with its early return. *)
Fixpoint scan_embeds (msg : message) (es : list embed)
  : option (string * string) :=
  match es with
  | [] => None
  | e :: rest =>
      match embed_image_url e with
      | Some u => Some (make_sig (m_id msg) (edited_at msg) u, u)
      | None => scan_embeds msg rest
      end
  end.

(** The body of the [async for]: what one message contributes. *)
Definition scan_message (msg : message) : option (string * string) :=
  match scan_attachments msg (attachments msg) with
  | Some r => Some r
  | None => scan_embeds msg (embeds msg)
  end.

(** The [async for] loop over the messages the history yields. *)
Fixpoint scan_messages (msgs : list message) : option string * option string :=
  match msgs with
  | [] => (None, None)
  | msg :: older =>
      match scan_message msg with
      | Some (sig, url) => (Some sig, Some url)
      | None => scan_messages older
      end
  end.

(** ** The polling loop *)

Definition bytes : Type := list Byte.byte.

(** What [session.get(url)] yields: the status line of the response;
    [error_text] is [str()] of the error that [raise_for_status] builds. *)
Record http_response : Type := {
  status : Z;
  error_text : string
}.

(** The operations of the loop: its local variable [last_sig], the awaited
    calls [channel.history], [asyncio.sleep], [session.get], [r.read] and
    [out_ch.send], and the call [r.raise_for_status]. *)
Inductive rop : Type -> Type :=
  | LoadLastSig : rop (option string)
  | StoreLastSig (sig : option string) : rop unit
  | History (limit : nat) : rop (list message)
  | Sleep (secs : Z) : rop unit
  | Get (url : string) : rop http_response
  | RaiseForStatus (r : http_response) : rop unit
  | Read (r : http_response) : rop bytes
  | Send (content : string) (file : option (string * bytes)) : rop unit.

Definition POLL_SECONDS : Z := 30.

(** [find_latest_image(channel)]: the history is awaited, then scanned. *)
Definition find_latest_image : coro rop (option string * option string) :=
  msgs ← call (History 30);
  mret (scan_messages msgs).

(** [r.raise_for_status()]: an error status raises. *)
Definition raise_for_status (r : http_response) : result unit :=
  if 400 <=? status r
  then Err (Exception "ClientResponseError" (error_text r))
  else Ok tt.

Definition archive_caption : string := "🖼️ **Archived image (updated)**".

(** [f"⚠️ /archieved error: `{type(e).__name__}: {e}`"] *)
Definition warning_text (e : exn) : string :=
  match e with
  | Exception ty msg => "⚠️ /archieved error: `" +:+ ty +:+ ": " +:+ msg +:+ "`"
  | CancelledError => "⚠️ /archieved error: `CancelledError: `"
  end.

(** How control leaves the [try] statement of one iteration. *)
Inductive flow : Type :=
  | FContinue   (* [continue]: straight to the next iteration *)
  | FNext       (* falls through to the sleep below the [try] *)
  | FBreak.     (* [break] *)

(** The body of the [try]. *)
Definition cycle_try : coro rop flow :=
  '(sig, url) ← find_latest_image;
  if negb (opt_truthy sig) || negb (opt_truthy url) then
    call (Sleep POLL_SECONDS);;
    mret FContinue
  else
    last_sig ← call LoadLastSig;
    if decide (sig = last_sig) then
      call (Sleep POLL_SECONDS);;
      mret FContinue
    else
      r ← call (Get (default "" url));
      call (RaiseForStatus r);;
      img ← call (Read r);
      call (Send archive_caption (Some ("archived.png", img)));;
      call (StoreLastSig sig);;
      mret FNext.

(** The [except Exception as e] clause: the warning post, whose own
    [Exception]s are passed over. *)
Definition report (e : exn) : coro rop unit :=
  try_except (call (Send (warning_text e) None))
    (fun e' => match e' with
               | Exception _ _ => mret tt
               | CancelledError => Raise CancelledError
               end).

(** One iteration of [while True]. *)
Definition cycle : coro rop flow :=
  f ← try_except cycle_try
        (fun e => match e with
                  | CancelledError => mret FBreak
                  | Exception _ _ => report e;; mret FNext
                  end);
  match f with
  | FNext => call (Sleep POLL_SECONDS);; mret FContinue
  | _ => mret f
  end.

(** *** The environment of one iteration *)

(** What each awaited call of one iteration is answered with; an answer
    [Err CancelledError] is the cancellation of the task, delivered at that
    await. *)
Record world : Type := {
  w_channel : result channel_log;  (* the source channel, or the error of the history request *)
  w_get : result http_response;
  w_read : result bytes;
  w_send : result unit;            (* the archive post *)
  w_warn : result unit;            (* the warning post *)
  w_cancel_in_sleep : bool         (* the task is cancelled while it sleeps *)
}.

(** The calls as the trace records them. *)
Inductive rcall : Type :=
  | CHistory (limit : nat)
  | CSleep (secs : Z)
  | CGet (url : string)
  | CRaiseForStatus
  | CRead
  | CSend (content : string) (file : option (string * bytes)).

Inductive outcome : Type :=
  | Returned
  | Raised (e : exn).

Definition outcome_of {A} (r : result A) : outcome :=
  match r with Ok _ => Returned | Err e => Raised e end.

Definition revent : Type := rcall * outcome.

(** [asyncio.sleep] raises nothing but the cancellation. *)
Definition sleep_answer (w : world) : result unit :=
  if w_cancel_in_sleep w then Err CancelledError else Ok tt.

Definition exec_rop (w : world) (X : Type) (o : rop X) (last_sig : option string)
  : option string * result X * list revent :=
  match o in rop X return option string * result X * list revent with
  | LoadLastSig => (last_sig, Ok last_sig, [])
  | StoreLastSig sig => (sig, Ok tt, [])
  | History limit =>
      let r := match w_channel w with
               | Ok ch => Ok (history limit ch)
               | Err e => Err e
               end in
      (last_sig, r, [(CHistory limit, outcome_of r)])
  | Sleep secs =>
      (last_sig, sleep_answer w, [(CSleep secs, outcome_of (sleep_answer w))])
  | Get url => (last_sig, w_get w, [(CGet url, outcome_of (w_get w))])
  | RaiseForStatus r =>
      (last_sig, raise_for_status r,
       [(CRaiseForStatus, outcome_of (raise_for_status r))])
  | Read _ => (last_sig, w_read w, [(CRead, outcome_of (w_read w))])
  | Send content file =>
      let r := match file with Some _ => w_send w | None => w_warn w end in
      (last_sig, r, [(CSend content file, outcome_of r)])
  end.

(** One iteration in the world [w], from the recorded signature [last_sig]. *)
Definition run_cycle (w : world) (last_sig : option string)
  : option string * list revent * result flow :=
  run (exec_rop w) cycle last_sig.

(** *** The loop *)

(** The task of the loop: still in its loop, or ended (by [break], [Ok], or
    by an exception that left the loop). *)
Inductive run_state : Type :=
  | RUNNING
  | ENDED (r : result unit).

(** [while True], over the worlds of its successive iterations. *)
Fixpoint runner_loop (ws : list world) (last_sig : option string)
  : option string * list revent * run_state :=
  match ws with
  | [] => (last_sig, [], RUNNING)
  | w :: ws' =>
      let '(ls1, tr, r) := run_cycle w last_sig in
      match r with
      | Ok FBreak => (ls1, tr, ENDED (Ok tt))
      | Ok _ =>
          let '(ls2, tr', st) := runner_loop ws' ls1 in
          (ls2, tr ++ tr', st)
      | Err e => (ls1, tr, ENDED (Err e))
      end
  end.

(** [runner()]: [last_sig = None], then the loop, inside the client session
    that is closed when the loop is left. *)
Definition runner (ws : list world) : option string * list revent * run_state :=
  runner_loop ws None.

End Archiver.

Arguments Build_message {timestamp} m_id edited_at attachments embeds.
Arguments m_id {timestamp} m.
Arguments edited_at {timestamp} m.
Arguments attachments {timestamp} m.
Arguments embeds {timestamp} m.
Arguments history {timestamp} limit ch : simpl never.
Arguments fmt_edited {timestamp} fmt_float ed.
Arguments make_sig {timestamp} fmt_float id ed url.
Arguments scan_attachments {timestamp} fmt_float msg atts.
Arguments scan_embeds {timestamp} fmt_float msg es.
Arguments scan_message {timestamp} fmt_float msg.
Arguments scan_messages {timestamp} fmt_float msgs.
Arguments find_latest_image {timestamp} fmt_float.
Arguments cycle_try {timestamp} fmt_float.
Arguments report {timestamp} e.
Arguments cycle {timestamp} fmt_float.
Arguments Build_world {timestamp} w_channel w_get w_read w_send w_warn w_cancel_in_sleep.
Arguments w_channel {timestamp} w.
Arguments w_get {timestamp} w.
Arguments w_read {timestamp} w.
Arguments w_send {timestamp} w.
Arguments w_warn {timestamp} w.
Arguments w_cancel_in_sleep {timestamp} w.
Arguments sleep_answer {timestamp} w.
Arguments exec_rop {timestamp} w X o last_sig.
Arguments run_cycle {timestamp} fmt_float w last_sig.
Arguments runner_loop {timestamp} fmt_float ws last_sig.
Arguments runner {timestamp} fmt_float ws.

(** ** The command and its task registry *)

(** [str.lower] and [str.strip], on ASCII text. *)
Definition lower_char (c : ascii) : ascii :=
  let n := nat_of_ascii c in
  if (65 <=? n)%nat && (n <=? 90)%nat then ascii_of_nat (n + 32) else c.

Fixpoint lower (s : string) : string :=
  match s with
  | EmptyString => EmptyString
  | String c r => String (lower_char c) (lower r)
  end.

Definition is_space (c : ascii) : bool :=
  let n := nat_of_ascii c in
  (n =? 32)%nat || ((9 <=? n)%nat && (n <=? 13)%nat)
  || ((28 <=? n)%nat && (n <=? 31)%nat).

Fixpoint lstrip (s : string) : string :=
  match s with
  | EmptyString => EmptyString
  | String c r => if is_space c then lstrip r else s
  end.

Fixpoint rstrip (s : string) : string :=
  match s with
  | EmptyString => EmptyString
  | String c r =>
      match rstrip r with
      | EmptyString => if is_space c then EmptyString else String c EmptyString
      | r' => String c r'
      end
  end.

Definition strip (s : string) : string := rstrip (lstrip s).

(** A channel object; [ch_is_text] is [isinstance(ch, discord.TextChannel)]. *)
Record channel_obj : Type := {
  ch_id : Z;
  ch_is_text : bool
}.

(** [ch.mention] *)
Definition mention (ch : channel_obj) : string := "<#" +:+ pretty (ch_id ch) +:+ ">".

Record interaction : Type := {
  guild_id : option Z;
  user_id : Z;
  i_channel : option channel_obj
}.

(** The owning key of a task: [(guild_id or 0, user.id)]. *)
Abbreviation key := (Z * Z)%type.

(** An [asyncio.Task] running [runner()]: [Pending] until [cancel()] is
    called on it ([Cancelling]: the cancellation is requested and not yet
    delivered) or it has ended ([Done]). *)
Inductive task_status : Type := Pending | Cancelling | Done.

(** [t_key] is the key of the command that created the task. *)
Record task : Type := {
  t_key : key;
  t_source : channel_obj;
  t_out : channel_obj;
  t_status : task_status
}.

(** The module-level dict [_active_archives] and the tasks of the event
    loop; a task handle is the task's index in [loop_tasks]. *)
Record bot_state : Type := {
  _active_archives : gmap key nat;
  loop_tasks : list task
}.

Definition set_status (s : task_status) (t : task) : task :=
  {| t_key := t_key t; t_source := t_source t; t_out := t_out t; t_status := s |}.

(** [task.done()] *)
Definition task_done (st : bot_state) (h : nat) : bool :=
  match loop_tasks st !! h with
  | Some t => match t_status t with Done => true | _ => false end
  | None => true
  end.

(** [task.cancel()]: a request; nothing happens to a task that is done. *)
Definition task_cancel (st : bot_state) (h : nat) : bot_state :=
  {| _active_archives := _active_archives st;
     loop_tasks :=
       alter (fun t => match t_status t with
                       | Done => t
                       | _ => set_status Cancelling t
                       end) h (loop_tasks st) |}.

(** The event loop delivers a requested cancellation: the loop of the task
    ends. *)
Definition deliver_cancel (st : bot_state) (h : nat) : bot_state :=
  {| _active_archives := _active_archives st;
     loop_tasks :=
       alter (fun t => match t_status t with
                       | Cancelling => set_status Done t
                       | _ => t
                       end) h (loop_tasks st) |}.

(** The operations of the command: the awaited calls
    [interaction.response.send_message] and [bot.fetch_channel], the cache
    lookup [bot.get_channel], and the accesses to the registry and tasks. *)
Inductive bop : Type -> Type :=
  | SendMessage (text : string) (ephemeral : bool) : bop unit
  | GetChannel (id : Z) : bop (option channel_obj)
  | FetchChannel (id : Z) : bop channel_obj
  | ArchivesPop (k : key) : bop (option nat)
  | TaskDone (h : nat) : bop bool
  | TaskCancel (h : nat) : bop unit
  | CreateTask (k : key) (source out : channel_obj) : bop nat
  | ArchivesSet (k : key) (h : nat) : bop unit.

Definition is_await_bop (X : Type) (o : bop X) : bool :=
  match o with
  | SendMessage _ _ | FetchChannel _ => true
  | _ => false
  end.

(** What the awaited calls of a command are answered with. *)
Record bworld : Type := {
  bw_send : result unit;
  bw_cache : Z -> option channel_obj;
  bw_fetch : Z -> result channel_obj
}.

Inductive bevent : Type :=
  | BSend (text : string) (ephemeral : bool) (o : outcome)
  | BCancel (h : nat)
  | BCreate (h : nat).

Definition exec_bop (w : bworld) (X : Type) (o : bop X) (st : bot_state)
  : bot_state * result X * list bevent :=
  match o in bop X return bot_state * result X * list bevent with
  | SendMessage text eph => (st, bw_send w, [BSend text eph (outcome_of (bw_send w))])
  | GetChannel id => (st, Ok (bw_cache w id), [])
  | FetchChannel id => (st, bw_fetch w id, [])
  | ArchivesPop k =>
      ({| _active_archives := delete k (_active_archives st);
          loop_tasks := loop_tasks st |},
       Ok (_active_archives st !! k), [])
  | TaskDone h => (st, Ok (task_done st h), [])
  | TaskCancel h => (task_cancel st h, Ok tt, [BCancel h])
  | CreateTask k source out =>
      let h := length (loop_tasks st) in
      ({| _active_archives := _active_archives st;
          loop_tasks := loop_tasks st ++
            [{| t_key := k; t_source := source; t_out := out; t_status := Pending |}] |},
       Ok h, [BCreate h])
  | ArchivesSet k h =>
      ({| _active_archives := <[k := h]> (_active_archives st);
          loop_tasks := loop_tasks st |},
       Ok tt, [])
  end.

Definition nl : string := String (ascii_of_nat 10) EmptyString.

Section Commands.

(** The configuration read from the environment at start-up. *)
Variable BOT_OWNER_ID : Z.
Variable SOURCE_CHANNEL_ID : Z.

Definition is_owner (user_id : Z) : bool :=
  negb (BOT_OWNER_ID =? 0) && (user_id =? BOT_OWNER_ID).

Definition deny_if_not_owner (i : interaction) : coro bop bool :=
  if is_owner (user_id i) then mret false
  else
    call (SendMessage "❌ Owner-only command." true);;
    mret true.

Definition get_text_channel (channel_id : Z) : coro bop channel_obj :=
  if channel_id =? 0 then Raise (Exception "RuntimeError" "SOURCE_CHANNEL_ID not set.")
  else
    cached ← call (GetChannel channel_id);
    ch ← match cached with
         | Some c => mret c
         | None => call (FetchChannel channel_id)
         end;
    if negb (ch_is_text ch)
    then Raise (Exception "RuntimeError" "Source channel is not a text channel.")
    else mret ch.

Definition started_text (source_channel out_ch : channel_obj) : string :=
  "✅ /archieved started" +:+ nl +:+
  "• Source: " +:+ mention source_channel +:+ nl +:+
  "• Output: " +:+ mention out_ch +:+ nl +:+
  "• Poll: " +:+ pretty POLL_SECONDS +:+ "s" +:+ nl +:+
  "Stop with `/archieved stop`".

(** The [STOP] branch. *)
Definition archieved_stop (k : key) : coro bop unit :=
  task ← call (ArchivesPop k);
  match task with
  | Some h =>
      done ← call (TaskDone h);
      if negb done then
        call (TaskCancel h);;
        call (SendMessage "🛑 /archieved stopped." true)
      else call (SendMessage "No active /archieved running." true)
  | None => call (SendMessage "No active /archieved running." true)
  end.

(** The [START] branch. *)
Definition archieved_start (i : interaction) (k : key)
    (output_channel : option channel_obj) : coro bop unit :=
  src ← try_except (ch ← get_text_channel SOURCE_CHANNEL_ID; mret (Some ch))
          (fun e => match e with
                    | Exception _ msg =>
                        call (SendMessage ("❌ " +:+ msg) true);; mret None
                    | CancelledError => Raise CancelledError
                    end);
  match src with
  | None => mret tt
  | Some source_channel =>
      match (match output_channel with Some c => Some c | None => i_channel i end) with
      | Some out_ch =>
          if ch_is_text out_ch then
            old ← call (ArchivesPop k);
            match old with
            | Some h =>
                done ← call (TaskDone h);
                if negb done then call (TaskCancel h) else mret tt
            | None => mret tt
            end;;
            call (SendMessage (started_text source_channel out_ch) true);;
            task ← call (CreateTask k source_channel out_ch);
            call (ArchivesSet k task)
          else call (SendMessage "Output must be a text channel." true)
      | None => call (SendMessage "Output must be a text channel." true)
      end
  end.

(** The command [/archieved]. *)
Definition archieved (i : interaction) (mode : string)
    (output_channel : option channel_obj) : coro bop unit :=
  denied ← deny_if_not_owner i;
  if (denied : bool) then mret tt
  else
    let mode := strip (lower mode) in
    if negb (String.eqb mode "start" || String.eqb mode "stop") then
      call (SendMessage "Mode must be `start` or `stop`." true)
    else
      let k := (default 0 (guild_id i), user_id i) in
      if String.eqb mode "stop" then archieved_stop k
      else archieved_start i k output_channel.

End Commands.

(** A command handled alone, from its call to its end. *)
Definition run_command (w : bworld) (c : coro bop unit) (st : bot_state)
  : bot_state * list bevent * result unit :=
  run (exec_bop w) c st.

(** Commands handled by the event loop: each is a task of its own, started
    by [Spawn] and suspended at its awaits; [Resume i] lets the [i]-th one
    run from its pending await to its next one. *)
Inductive sched_step : Type :=
  | Spawn (c : coro bop unit)
  | Resume (i : nat).

Fixpoint schedule (w : bworld) (steps : list sched_step)
    (pool : list (coro bop unit)) (st : bot_state)
  : bot_state * list bevent * list (coro bop unit) :=
  match steps with
  | [] => (st, [], pool)
  | Spawn c :: rest =>
      let '(st1, tr, c') := run_sync (exec_bop w) is_await_bop c st in
      let '(st2, tr', pool') := schedule w rest (pool ++ [c']) st1 in
      (st2, tr ++ tr', pool')
  | Resume i :: rest =>
      match pool !! i with
      | Some c =>
          let '(st1, tr, c') := resume (exec_bop w) is_await_bop c st in
          let '(st2, tr', pool') := schedule w rest (<[i := c']> pool) st1 in
          (st2, tr ++ tr', pool')
      | None => schedule w rest pool st
      end
  end.

(** The live tasks (not cancelled, not ended) created under a key. *)
Definition live_under (k : key) (t : task) : bool :=
  bool_decide (t_key t = k) &&
  match t_status t with Pending => true | _ => false end.

Definition live_tasks (st : bot_state) (k : key) : list task :=
  filter (fun t => live_under k t = true) (loop_tasks st).

Definition initial_state : bot_state :=
  {| _active_archives := ∅; loop_tasks := [] |}.

(** ** Start-up *)





Section Startup.

(** [int(s)] of a string, as Python reads it. *)
Variable int_of_str : string -> result Z.




End Startup.

(** ** Notions the properties are stated with *)

(** No [":"] occurs in the string. *)
Fixpoint colon_free (s : string) : bool :=
  match s with
  | EmptyString => true
  | String c r => negb (Ascii.eqb c ":") && colon_free r
  end.

Definition is_cancel_event (ev : revent) : bool :=
  match ev.2 with
  | Raised CancelledError => true
  | _ => false
  end.

(** No awaited call of the trace was answered with the cancellation. *)
Definition no_cancel (tr : list revent) : Prop :=
  forallb (fun ev => negb (is_cancel_event ev)) tr = true.

(** The posts to the output channel: the archive post carries the file, the
    warning post carries none. *)
Definition is_archive_post (c : rcall) : bool :=
  match c with CSend _ (Some _) => true | _ => false end.

Definition is_warning_post (c : rcall) : bool :=
  match c with CSend _ None => true | _ => false end.

Definition is_send (c : rcall) : bool :=
  match c with CSend _ _ => true | _ => false end.

Definition is_sleep (c : rcall) : bool :=
  match c with CSleep _ => true | _ => false end.

Definition is_read (c : rcall) : bool :=
  match c with CRead => true | _ => false end.

Definition count_calls (p : rcall -> bool) (tr : list revent) : nat :=
  length (filter (fun ev => p ev.1 = true) tr).

(** A message without any image. *)
Definition no_image {timestamp} (m : message timestamp) : Prop :=
  Forall (fun a => is_image_attachment a = false) (attachments m) /\
  Forall (fun e => embed_image_url e = None) (embeds m).

(** The fetch and the post of an iteration both succeed in the world [w]. *)
Definition fetch_and_post_ok {timestamp} (w : world timestamp) : Prop :=
  exists r img,
    w_get w = Ok r /\ status r < 400 /\ w_read w = Ok img /\ w_send w = Ok tt.

(** What the extractor yields in the world [w]. *)
Definition sees {timestamp} (fmt_float : timestamp -> string)
    (w : world timestamp) (sig url : string) : Prop :=
  exists ch, w_channel w = Ok ch /\
    scan_messages fmt_float (history 30 ch) = (Some sig, Some url).

(** Commands handled one after the other. *)
Fixpoint run_commands (w : bworld) (cs : list (coro bop unit)) (st : bot_state)
  : bot_state * list bevent :=
  match cs with
  | [] => (st, [])
  | c :: rest =>
      let '(st1, tr, _) := run_command w c st in
      let '(st2, tr') := run_commands w rest st1 in
      (st2, tr ++ tr')
  end.

(** The string holds white space only. *)
Fixpoint all_space (s : string) : bool :=
  match s with
  | EmptyString => true
  | String c r => is_space c && all_space r
  end.

(** Every live task is the one the registry holds under the task's key. *)
Definition tracked (st : bot_state) : Prop :=
  forall h t,
    loop_tasks st !! h = Some t ->
    t_status t = Pending ->
    _active_archives st !! t_key t = Some h.

(** No live task was created under the key. *)
Definition key_free (k : key) (st : bot_state) : Prop :=
  forall h t,
    loop_tasks st !! h = Some t -> t_status t = Pending -> t_key t <> k.

(** ** Sample data *)

(** Whole-second timestamps, printed the way Python prints such a float. *)
Definition sample_fmt (t : Z) : string := pretty t +:+ ".0".

Definition msg_A {timestamp} : message timestamp :=
  Build_message 1 None [] [].

Definition msg_B {timestamp} : message timestamp :=
  Build_message 2 None [{| content_type := Some "image/png"; a_url := "x.png" |}] [].

Definition msg_C {timestamp} : message timestamp :=
  Build_message 3 None
    [{| content_type := Some "text/plain"; a_url := "notes.txt" |}]
    [{| e_image := Some {| i_url := Some "y.png" |} |}].

Definition resp_ok : http_response := {| status := 200; error_text := "" |}.

Definition world_of {timestamp} (ch : channel_log timestamp)
    (post : result unit) : world timestamp :=
  Build_world (Ok ch) (Ok resp_ok) (Ok []) post (Ok tt) false.

Definition world_ok : world Z := world_of [msg_A; msg_B] (Ok tt).

Definition world_post_fails : world Z :=
  world_of [msg_A; msg_B] (Err (Exception "HTTPException" "500")).

(** An attachment declared as an image whose URL is empty. *)
Definition msg_blank {timestamp} : message timestamp :=
  Build_message 4 None [{| content_type := Some "image/png"; a_url := "" |}] [].

Definition world_error_status : world Z :=
  Build_world (Ok [msg_A; msg_B])
    (Ok {| status := 404; error_text := "404, message='Not Found'" |})
    (Ok []) (Ok tt) (Ok tt) false.

Definition world_cancelled : world Z :=
  Build_world (Ok [msg_A; msg_B]) (Err CancelledError) (Ok []) (Ok tt) (Ok tt) false.

Definition owner_call : interaction :=
  {| guild_id := Some 7; user_id := 42;
     i_channel := Some {| ch_id := 5; ch_is_text := true |} |}.

Definition stranger_call : interaction :=
  {| guild_id := Some 7; user_id := 41;
     i_channel := Some {| ch_id := 5; ch_is_text := true |} |}.

Definition bworld_ok : bworld :=
  {| bw_send := Ok tt;
     bw_cache := fun id => Some {| ch_id := id; ch_is_text := true |};
     bw_fetch := fun id => Err (Exception "NotFound" "Unknown Channel") |}.


Definition voice_channel : channel_obj := {| ch_id := 6; ch_is_text := false |}.

Definition one_running : bot_state :=
  {| _active_archives := {[ (7, 42) := 0%nat ]};
     loop_tasks := [{| t_key := (7, 42);
                       t_source := {| ch_id := 9; ch_is_text := true |};
                       t_out := {| ch_id := 5; ch_is_text := true |};
                       t_status := Pending |}] |}.

(** * Properties *)

(** ** Strings *)

Lemma append_nil_l (s : string) : "" +:+ s = s.
Proof. reflexivity. Qed.

Lemma append_cons (c : ascii) (a s : string) :
  String c a +:+ s = String c (a +:+ s).
Proof. reflexivity. Qed.

Lemma length_append (a b : string) :
  String.length (a +:+ b) = (String.length a + String.length b)%nat.
Proof.
  induction a as [|c a IH]; [reflexivity|].
  rewrite append_cons. simpl. rewrite IH. reflexivity.
Qed.

Lemma colon_free_app (a b : string) :
  colon_free (a +:+ b) = colon_free a && colon_free b.
Proof.
  induction a as [|c a IH]; simpl; [reflexivity|].
  rewrite IH. apply andb_assoc.
Qed.

Lemma pretty_N_char_no_colon (d : N) : Ascii.eqb (pretty_N_char d) ":" = false.
Proof. unfold pretty_N_char. repeat case_match; reflexivity. Qed.

Lemma colon_free_pretty_N_go (x : N) (s : string) :
  colon_free s = true -> colon_free (pretty_N_go x s) = true.
Proof.
  revert s. induction (N.lt_wf_0 x) as [x _ IH]. intros s Hs.
  destruct (decide (x = 0%N)) as [->|Hx].
  - rewrite pretty_N_go_0. exact Hs.
  - rewrite pretty_N_go_step by lia.
    apply IH.
    + apply N.div_lt; lia.
    + simpl. rewrite pretty_N_char_no_colon. exact Hs.
Qed.

Lemma colon_free_pretty_N (x : N) : colon_free (pretty x) = true.
Proof.
  unfold pretty, pretty_N. case_decide; [reflexivity|].
  apply colon_free_pretty_N_go. reflexivity.
Qed.

Lemma colon_free_pretty_Z (z : Z) : colon_free (pretty z) = true.
Proof.
  destruct z as [|p|p]; unfold pretty, pretty_Z; simpl.
  - reflexivity.
  - apply colon_free_pretty_N.
  - apply (colon_free_pretty_N (N.pos p)).
Qed.

(** A string is cut in one way at its first colon. *)
Lemma cut_at_colon (a b x y : string) :
  colon_free a = true -> colon_free b = true ->
  a +:+ ":" +:+ x = b +:+ ":" +:+ y -> a = b /\ x = y.
Proof.
  revert b. induction a as [|c a IH]; intros [|d b] Ha Hb Heq;
    rewrite ?append_cons, ?append_nil_l in Heq; simpl in Ha, Hb.
  - injection Heq as ->. split; reflexivity.
  - injection Heq as <- _. discriminate Hb.
  - injection Heq as -> _. discriminate Ha.
  - injection Heq as -> Heq.
    apply andb_prop in Ha as [_ Ha]. apply andb_prop in Hb as [_ Hb].
    destruct (IH b Ha Hb Heq) as [-> ->]. split; reflexivity.
Qed.

Lemma append_tail_inj (a b t : string) : a +:+ t = b +:+ t -> a = b.
Proof.
  revert b. induction a as [|c a IH]; intros [|d b] Heq;
    rewrite ?append_cons, ?append_nil_l in Heq.
  - reflexivity.
  - exfalso. apply (f_equal String.length) in Heq. simpl in Heq.
    rewrite length_append in Heq. lia.
  - exfalso. apply (f_equal String.length) in Heq. simpl in Heq.
    rewrite length_append in Heq. lia.
  - injection Heq as -> Heq. f_equal. apply IH, Heq.
Qed.

Lemma sample_fmt_colon_free (t : Z) : colon_free (sample_fmt t) = true.
Proof.
  unfold sample_fmt. rewrite colon_free_app, colon_free_pretty_Z. reflexivity.
Qed.

Lemma sample_fmt_inj (t t' : Z) : sample_fmt t = sample_fmt t' -> t = t'.
Proof.
  unfold sample_fmt. intros H. apply append_tail_inj in H.
  apply (inj pretty), H.
Qed.

Lemma sample_fmt_not_zero (t : Z) : sample_fmt t <> "0".
Proof.
  unfold sample_fmt. intros H.
  apply (f_equal String.length) in H. rewrite length_append in H.
  simpl in H. lia.
Qed.

(** ** The image finder *)

Section Finder.
Context {timestamp : Type} (fmt_float : timestamp -> string).

#[local] Abbreviation message := (message timestamp).
#[local] Abbreviation world := (world timestamp).

Lemma scan_attachments_none (m : message) (atts : list attachment) :
  Forall (fun a => is_image_attachment a = false) atts ->
  scan_attachments fmt_float m atts = None.
Proof.
  induction 1 as [|a atts Ha _ IH]; simpl; [reflexivity|].
  rewrite Ha. exact IH.
Qed.

Lemma scan_attachments_first (m : message) (pre post : list attachment) (a : attachment) :
  Forall (fun a' => is_image_attachment a' = false) pre ->
  is_image_attachment a = true ->
  scan_attachments fmt_float m (pre ++ a :: post) =
    Some (make_sig fmt_float (m_id m) (edited_at m) (a_url a), a_url a).
Proof.
  intros Hpre Ha. induction Hpre as [|b pre Hb _ IH]; simpl.
  - rewrite Ha. reflexivity.
  - rewrite Hb. exact IH.
Qed.

Lemma scan_embeds_none (m : message) (es : list embed) :
  Forall (fun e => embed_image_url e = None) es ->
  scan_embeds fmt_float m es = None.
Proof.
  induction 1 as [|e es He _ IH]; simpl; [reflexivity|].
  rewrite He. exact IH.
Qed.

Lemma scan_embeds_first (m : message) (pre post : list embed) (e : embed) (u : string) :
  Forall (fun e' => embed_image_url e' = None) pre ->
  embed_image_url e = Some u ->
  scan_embeds fmt_float m (pre ++ e :: post) =
    Some (make_sig fmt_float (m_id m) (edited_at m) u, u).
Proof.
  intros Hpre He. induction Hpre as [|b pre Hb _ IH]; simpl.
  - rewrite He. reflexivity.
  - rewrite Hb. exact IH.
Qed.

Lemma scan_message_none (m : message) :
  no_image m -> scan_message fmt_float m = None.
Proof.
  intros [Ha He]. unfold scan_message.
  rewrite (scan_attachments_none m _ Ha). apply scan_embeds_none, He.
Qed.

(** Messages without an image are passed over. *)
Lemma scan_messages_skip (newer rest : list message) :
  Forall no_image newer ->
  scan_messages fmt_float (newer ++ rest) = scan_messages fmt_float rest.
Proof.
  induction 1 as [|m newer Hm _ IH]; simpl; [reflexivity|].
  rewrite (scan_message_none m Hm). exact IH.
Qed.

Lemma scan_messages_none (msgs : list message) :
  Forall no_image msgs -> scan_messages fmt_float msgs = (None, None).
Proof.
  intros H. rewrite <- (app_nil_r msgs). rewrite scan_messages_skip by exact H.
  reflexivity.
Qed.

Lemma scan_attachments_sig (m : message) (atts : list attachment) (sig url : string) :
  scan_attachments fmt_float m atts = Some (sig, url) ->
  sig = make_sig fmt_float (m_id m) (edited_at m) url.
Proof.
  induction atts as [|a atts IH]; simpl; [discriminate|].
  destruct (is_image_attachment a); [|exact IH].
  intros [= <- <-]. reflexivity.
Qed.

Lemma scan_embeds_sig (m : message) (es : list embed) (sig url : string) :
  scan_embeds fmt_float m es = Some (sig, url) ->
  sig = make_sig fmt_float (m_id m) (edited_at m) url /\ str_truthy url = true.
Proof.
  induction es as [|e es IH]; simpl; [discriminate|].
  destruct (embed_image_url e) as [u|] eqn:He; [|exact IH].
  intros [= <- <-]. split; [reflexivity|].
  unfold embed_image_url in He.
  destruct (e_image e) as [img|]; [|discriminate].
  destruct (i_url img) as [v|]; [|discriminate].
  destruct (str_truthy v) eqn:Hv; [|discriminate].
  injection He as <-. exact Hv.
Qed.

(** Whatever the scan yields is the signature of a scanned message. *)
Lemma scan_messages_sig (msgs : list message) (sig url : string) :
  scan_messages fmt_float msgs = (Some sig, Some url) ->
  exists m, m ∈ msgs /\ sig = make_sig fmt_float (m_id m) (edited_at m) url.
Proof.
  induction msgs as [|m msgs IH]; simpl; [discriminate|].
  destruct (scan_message fmt_float m) as [[s u]|] eqn:Hm.
  - intros [= <- <-]. exists m. split; [left|].
    unfold scan_message in Hm.
    destruct (scan_attachments fmt_float m (attachments m)) as [[s' u']|] eqn:Ha.
    + injection Hm as <- <-. eapply scan_attachments_sig, Ha.
    + eapply scan_embeds_sig, Hm.
  - intros H. destruct (IH H) as (m' & Hin & Hsig).
    exists m'. split; [right; exact Hin | exact Hsig].
Qed.

Lemma make_sig_truthy (id : Z) (ed : option timestamp) (url : string) :
  str_truthy (make_sig fmt_float id ed url) = true.
Proof.
  unfold make_sig. destruct (pretty id) as [|c s]; reflexivity.
Qed.

Lemma scan_messages_truthy (msgs : list message) (sig url : string) :
  scan_messages fmt_float msgs = (Some sig, Some url) -> str_truthy sig = true.
Proof.
  intros H. destruct (scan_messages_sig _ _ _ H) as (m & _ & ->).
  apply make_sig_truthy.
Qed.

Lemma run_find_latest_image (w : world) (ch : channel_log timestamp) (ls : option string) :
  w_channel w = Ok ch ->
  run (exec_rop w) (find_latest_image fmt_float) ls =
    (ls, [(CHistory 30, Returned)], Ok (scan_messages fmt_float (history 30 ch))).
Proof.
  intros Hch. unfold find_latest_image. cbn. rewrite Hch. reflexivity.
Qed.

(** C1. Over the 30 most recent messages of the channel, newest first,
    [find_latest_image] returns the signature and URL of the first image it
    meets: the newest message with an image decides, whatever the older
    messages hold; within that message the first image attachment wins, and
    an embed image counts only when no attachment is an image.  Without any
    image in the window it returns [(None, None)]. *)
Theorem find_latest_image_newest_first
    (w : world) (ch : channel_log timestamp) (ls : option string) :
  w_channel w = Ok ch ->
  exists res,
    run (exec_rop w) (find_latest_image fmt_float) ls =
      (ls, [(CHistory 30, Returned)], Ok res) /\
    (Forall no_image (take 30 ch) -> res = (None, None)) /\
    (forall newer m older,
       take 30 ch = newer ++ m :: older ->
       Forall no_image newer ->
       (forall pre a post,
          attachments m = pre ++ a :: post ->
          Forall (fun a' => is_image_attachment a' = false) pre ->
          is_image_attachment a = true ->
          res = (Some (make_sig fmt_float (m_id m) (edited_at m) (a_url a)),
                 Some (a_url a))) /\
       (forall pre e post u,
          Forall (fun a => is_image_attachment a = false) (attachments m) ->
          embeds m = pre ++ e :: post ->
          Forall (fun e' => embed_image_url e' = None) pre ->
          embed_image_url e = Some u ->
          res = (Some (make_sig fmt_float (m_id m) (edited_at m) u), Some u))).
Proof.
  intros Hch. eexists. split; [apply run_find_latest_image, Hch|].
  unfold history. split.
  - apply scan_messages_none.
  - intros newer m older -> Hnewer. rewrite scan_messages_skip by exact Hnewer.
    split.
    + intros pre a post Hatts Hpre Ha. simpl. unfold scan_message.
      rewrite Hatts, scan_attachments_first by assumption. reflexivity.
    + intros pre e post u Hatts Hemb Hpre He. simpl. unfold scan_message.
      rewrite scan_attachments_none by exact Hatts.
      rewrite Hemb, scan_embeds_first with (u := u) by assumption. reflexivity.
Qed.

(** C5. The signature is the message identifier, the last-edit timestamp or
    zero, and the image URL, joined by colons; two signatures are equal
    exactly when the three components are; and on the history
    [[msg_A; msg_B]] the extractor returns ["2:0:x.png"] and ["x.png"].
    The rendering of a float is free of colons, is one-to-one, and never
    reads ["0"]. *)
Theorem signature_components
    (Hcolon : forall t, colon_free (fmt_float t) = true)
    (Hinj : forall t t', fmt_float t = fmt_float t' -> t = t')
    (Hzero : forall t, fmt_float t <> "0") :
  (forall (ch : channel_log timestamp) sig url,
     scan_messages fmt_float (history 30 ch) = (Some sig, Some url) ->
     exists m, m ∈ take 30 ch /\
       sig = pretty (m_id m) +:+ ":" +:+
             match edited_at m with Some t => fmt_float t | None => "0" end
             +:+ ":" +:+ url) /\
  (forall id1 ed1 url1 id2 ed2 url2,
     make_sig fmt_float id1 ed1 url1 = make_sig fmt_float id2 ed2 url2 <->
     id1 = id2 /\ ed1 = ed2 /\ url1 = url2) /\
  (forall (w : world) ls,
     w_channel w = Ok [msg_A; msg_B] ->
     run (exec_rop w) (find_latest_image fmt_float) ls =
       (ls, [(CHistory 30, Returned)], Ok (Some "2:0:x.png", Some "x.png"))).
Proof.
  split; [|split].
  - intros ch sig url H. apply scan_messages_sig in H. exact H.
  - intros id1 ed1 url1 id2 ed2 url2. split.
    + unfold make_sig. intros H.
      apply cut_at_colon in H as [Hid H]; try apply colon_free_pretty_Z.
      assert (Hed : forall ed, colon_free (fmt_edited fmt_float ed) = true).
      { intros [t|]; simpl; [apply Hcolon | reflexivity]. }
      apply cut_at_colon in H as [Hed' Hurl]; try apply Hed.
      split; [apply (inj pretty), Hid|]. split; [|exact Hurl].
      destruct ed1 as [t1|], ed2 as [t2|]; simpl in Hed'.
      * f_equal. apply Hinj, Hed'.
      * destruct (Hzero t1 Hed').
      * destruct (Hzero t2). symmetry. exact Hed'.
      * reflexivity.
    + intros (-> & -> & ->). reflexivity.
  - intros w ls Hch. rewrite run_find_latest_image with (ch := [msg_A; msg_B]) by exact Hch.
    reflexivity.
Qed.

End Finder.

(** ** The polling loop *)

(** Case analysis on what the awaited calls of one iteration are answered
    with, following the control flow of the iteration. *)
Ltac case_head :=
  match goal with
  | H : scan_messages _ _ = _ |- context [scan_messages _ _] => rewrite H
  | H : str_truthy ?s = _ |- context [str_truthy ?s] => rewrite H
  | u : unit |- _ => destruct u
  | |- context [match ?x with _ => _ end] =>
      first [ is_var x; destruct x
            | match x with
              | (_ <=? _) => destruct x eqn:?
              | decide _ => destruct x
              | scan_messages _ _ => destruct x as [[?|] [?|]] eqn:?
              end ]
  | |- context [if ?x then _ else _] =>
      first [ is_var x; destruct x
            | match x with
              | (_ <=? _) => destruct x eqn:?
              | decide _ => destruct x
              end ]
  | |- context [str_truthy ?s] => is_var s; destruct s
  end.

Ltac cycle_cases :=
  unfold run_cycle, cycle, cycle_try, find_latest_image, report;
  cbn;
  repeat (first [progress (unfold sleep_answer, raise_for_status, outcome_of)
                | case_head]; cbn).

(** Where a listed trace is cut into a prefix, an event and a suffix. *)
Ltac cut_cases :=
  repeat match goal with
         | H : _ = ?pre ++ _ :: _ |- _ => is_var pre; destruct pre; simplify_eq/=
         end.

Ltac leb_hyps :=
  repeat match goal with
         | H : (_ <=? _) = true |- _ => apply Z.leb_le in H
         | H : (_ <=? _) = false |- _ => apply Z.leb_gt in H
         end.

Lemma no_cancel_app (tr tr' : list revent) :
  no_cancel (tr ++ tr') <-> no_cancel tr /\ no_cancel tr'.
Proof.
  unfold no_cancel. rewrite forallb_app. apply andb_true_iff.
Qed.

(** A trace has one place at most where the cancellation can stand at the
    end of a prefix free of it. *)
Lemma cancel_is_last (pre pre' post : list revent) (c : rcall) (ev : revent) :
  no_cancel pre' ->
  pre ++ (c, Raised CancelledError) :: post = pre' ++ [ev] ->
  post = [].
Proof.
  revert pre. induction pre' as [|y pre' IH]; intros [|x pre] Hnc Heq;
    simplify_eq/=.
  - reflexivity.
  - destruct pre; discriminate.
  - discriminate Hnc.
  - apply andb_prop in Hnc as [_ Hnc]. eapply IH; eassumption.
Qed.

Section Loop.
Context {timestamp : Type} (fmt_float : timestamp -> string).

#[local] Abbreviation world := (world timestamp).

(** An iteration either goes on to the next one, and then no call of it was
    cancelled, or it ends the loop, and then its last call was cancelled. *)
Lemma cycle_dichotomy (w : world) (ls : option string) :
  let '(ls', tr, res) := run_cycle fmt_float w ls in
  (res = Ok FContinue /\ no_cancel tr) \/
  (res <> Ok FContinue /\ res <> Ok FNext /\
   exists pre c, tr = pre ++ [(c, Raised CancelledError)] /\ no_cancel pre).
Proof.
  destruct w as [wc wg wr ws ww wsl].
  cycle_cases.
  all: try (left; split; reflexivity).
  all: right; split; [discriminate|]; split; [discriminate|].
  all: first
    [ eexists [], _; split; reflexivity
    | eexists [_], _; split; reflexivity
    | eexists [_; _], _; split; reflexivity
    | eexists [_; _; _], _; split; reflexivity
    | eexists [_; _; _; _], _; split; reflexivity
    | eexists [_; _; _; _; _], _; split; reflexivity
    | eexists [_; _; _; _; _; _], _; split; reflexivity ].
Qed.

(** A warning post stands right after a call that raised an [Exception],
    and reports that exception. *)
Lemma cycle_warning_follows_exception (w : world) (ls : option string)
    (pre post : list revent) (content : string) (o : outcome) :
  (run_cycle fmt_float w ls).1.2 = pre ++ (CSend content None, o) :: post ->
  exists pre' c ty msg,
    pre = pre' ++ [(c, Raised (Exception ty msg))] /\
    content = warning_text (Exception ty msg).
Proof.
  destruct w as [wc wg wr ws ww wsl].
  cycle_cases.
  all: intros Hcut; cut_cases.
  all: first
    [ eexists [], _, _, _; split; reflexivity
    | eexists [_], _, _, _; split; reflexivity
    | eexists [_; _], _, _, _; split; reflexivity
    | eexists [_; _; _], _, _, _; split; reflexivity
    | eexists [_; _; _; _], _, _, _; split; reflexivity
    | eexists [_; _; _; _; _], _, _, _; split; reflexivity
    | eexists [_; _; _; _; _; _], _, _, _; split; reflexivity ].
Qed.

Lemma runner_loop_dichotomy (ws : list world) (ls : option string) :
  let '(ls', tr, st) := runner_loop fmt_float ws ls in
  (st = RUNNING /\ no_cancel tr) \/
  (exists r pre c,
     st = ENDED r /\ tr = pre ++ [(c, Raised CancelledError)] /\ no_cancel pre).
Proof.
  revert ls. induction ws as [|w ws IH]; intros ls; simpl.
  { left. split; reflexivity. }
  pose proof (cycle_dichotomy w ls) as Hc.
  destruct (run_cycle fmt_float w ls) as [[ls1 tr] res].
  destruct Hc as [[-> Hnc] | (Hne & Hne' & pre & c & -> & Hnc)].
  - specialize (IH ls1).
    destruct (runner_loop fmt_float ws ls1) as [[ls2 tr'] st].
    destruct IH as [[-> Hnc'] | (r & pre & c & -> & -> & Hnc')].
    + left. split; [reflexivity|]. apply no_cancel_app. split; assumption.
    + right. exists r, (tr ++ pre), c. split; [reflexivity|].
      split; [apply app_assoc|]. apply no_cancel_app. split; assumption.
  - destruct res as [[| |]|e]; try congruence; right.
    + exists (Ok tt), pre, c. repeat split; assumption.
    + exists (Err e), pre, c. repeat split; assumption.
Qed.

Lemma runner_loop_ended (ws more : list world) (ls : option string) :
  (runner_loop fmt_float ws ls).2 <> RUNNING ->
  runner_loop fmt_float (ws ++ more) ls = runner_loop fmt_float ws ls.
Proof.
  revert ls. induction ws as [|w ws IH]; intros ls; simpl.
  { intros H. destruct H. reflexivity. }
  destruct (run_cycle fmt_float w ls) as [[ls1 tr] [[| |]|e]]; try reflexivity.
  - specialize (IH ls1).
    destruct (runner_loop fmt_float ws ls1) as [[ls2 tr'] st] eqn:E.
    intros H. rewrite IH by exact H. reflexivity.
  - specialize (IH ls1).
    destruct (runner_loop fmt_float ws ls1) as [[ls2 tr'] st] eqn:E.
    intros H. rewrite IH by exact H. reflexivity.
Qed.

(** C7. A cancellation ends the loop at once: the cancelled call is the last
    event of the trace, so neither a post nor a sleep follows it; no warning
    is posted for it, a warning post only ever follows a call that raised an
    [Exception]; the loop ends only with a cancelled call; and an ended loop
    stays ended, whatever worlds would follow. *)
Theorem cancellation_ends_the_loop (ws : list world) (ls : option string) :
  let '(ls', tr, st) := runner_loop fmt_float ws ls in
  (forall pre c post,
     tr = pre ++ (c, Raised CancelledError) :: post ->
     post = [] /\ exists r, st = ENDED r) /\
  (forall w ls0 pre content o post,
     (run_cycle fmt_float w ls0).1.2 = pre ++ (CSend content None, o) :: post ->
     exists pre' c ty msg,
       pre = pre' ++ [(c, Raised (Exception ty msg))] /\
       content = warning_text (Exception ty msg)) /\
  (forall r, st = ENDED r -> exists pre c, tr = pre ++ [(c, Raised CancelledError)]) /\
  (forall more,
     st <> RUNNING ->
     runner_loop fmt_float (ws ++ more) ls = runner_loop fmt_float ws ls).
Proof.
  pose proof (runner_loop_dichotomy ws ls) as Hd.
  pose proof (runner_loop_ended ws) as He.
  destruct (runner_loop fmt_float ws ls) as [[ls' tr] st] eqn:E; simpl in *.
  split; [|split; [|split]].
  - intros pre c post ->.
    destruct Hd as [[_ Hnc] | (r & pre' & c' & -> & Heq & Hnc)].
    + apply no_cancel_app in Hnc as [_ Hnc]. discriminate Hnc.
    + split; [|eauto]. eapply cancel_is_last; eassumption.
  - intros w ls0 pre content o post. apply cycle_warning_follows_exception.
  - intros r ->. destruct Hd as [[[=] _] | (r' & pre & c & _ & -> & _)]. eauto.
  - intros more Hst. specialize (He more ls). rewrite E in He. apply He, Hst.
Qed.

(** C6. In an iteration none of whose calls is cancelled, an [Exception]
    raised by a call is followed by the warning post that reports it and by
    the sleep of [POLL_SECONDS]; a warning post that fails is followed by the
    sleep alone; and the iteration goes on to the next one.  A loop none of
    whose calls is cancelled is still running. *)
Theorem errors_reported_and_loop_continues
    (w : world) (ls ls' : option string) (tr : list revent) (res : result flow) :
  run_cycle fmt_float w ls = (ls', tr, res) ->
  no_cancel tr ->
  res = Ok FContinue /\
  (forall pre c ty msg post,
     tr = pre ++ (c, Raised (Exception ty msg)) :: post ->
     is_warning_post c = false ->
     exists o,
       post = [(CSend (warning_text (Exception ty msg)) None, o);
               (CSleep POLL_SECONDS, Returned)]) /\
  (forall pre c e post,
     tr = pre ++ (c, Raised e) :: post ->
     is_warning_post c = true ->
     post = [(CSleep POLL_SECONDS, Returned)]) /\
  (forall ws ls0,
     no_cancel (runner_loop fmt_float ws ls0).1.2 ->
     (runner_loop fmt_float ws ls0).2 = RUNNING).
Proof.
  intros Hrun Hnc. split; [|split; [|split]].
  - pose proof (cycle_dichotomy w ls) as Hd. rewrite Hrun in Hd.
    destruct Hd as [[-> _] | (_ & _ & pre & c & -> & _)]; [reflexivity|].
    apply no_cancel_app in Hnc as [_ Hnc]. discriminate Hnc.
  - revert Hrun Hnc. destruct w as [wc wg wr ws ww wsl].
    cycle_cases.
    all: intros [= <- <- <-] Hnc pre_ c_ ty_ msg_ post_ Hcut Hw;
      try discriminate Hnc;
      cut_cases; try discriminate Hw; eauto.
  - revert Hrun Hnc. destruct w as [wc wg wr ws ww wsl].
    cycle_cases.
    all: intros [= <- <- <-] Hnc pre_ c_ e_ post_ Hcut Hw;
      try discriminate Hnc;
      cut_cases; try discriminate Hw; eauto.
  - intros ws ls0 Hnc0.
    pose proof (runner_loop_dichotomy ws ls0) as Hd.
    destruct (runner_loop fmt_float ws ls0) as [[ls2 tr2] st]; simpl in *.
    destruct Hd as [[-> _] | (r & pre & c & _ & -> & _)]; [reflexivity|].
    apply no_cancel_app in Hnc0 as [_ Hnc0]. discriminate Hnc0.
Qed.

(** C3. In an iteration that finds a changed signature, the recorded
    signature becomes the new one exactly when the fetch and the post both
    succeed, and the post is then the last call before the sleep; otherwise
    it is left as it was, and the next iteration that finds the same
    signature fetches the image again. *)
Theorem signature_recorded_only_after_success
    (w : world) (ls : option string) (sig url : string) :
  sees fmt_float w sig url ->
  str_truthy url = true ->
  ls <> Some sig ->
  let '(ls', tr, res) := run_cycle fmt_float w ls in
  (fetch_and_post_ok w ->
     ls' = Some sig /\
     exists img o,
       tr = [(CHistory 30, Returned); (CGet url, Returned);
             (CRaiseForStatus, Returned); (CRead, Returned);
             (CSend archive_caption (Some ("archived.png", img)), Returned);
             (CSleep POLL_SECONDS, o)]) /\
  (ls' = Some sig -> fetch_and_post_ok w) /\
  (~ fetch_and_post_ok w -> ls' = ls) /\
  (~ fetch_and_post_ok w ->
     forall w2 : world,
       sees fmt_float w2 sig url ->
       exists rest,
         (run_cycle fmt_float w2 ls').1.2 =
           (CHistory 30, Returned) :: (CGet url, outcome_of (w_get w2)) :: rest).
Proof.
  intros (ch & Hch & Hscan) Hurl Hne.
  pose proof (scan_messages_truthy _ _ _ _ Hscan) as Hsig.
  assert (Hretry : forall w2 : world,
             sees fmt_float w2 sig url ->
             exists rest,
               (run_cycle fmt_float w2 ls).1.2 =
                 (CHistory 30, Returned) :: (CGet url, outcome_of (w_get w2)) :: rest).
  { intros [wc2 wg2 wr2 ws2 ww2 wsl2] (ch2 & Hch2 & Hscan2). simpl in Hch2. subst wc2.
    cycle_cases. all: try congruence. all: eauto. }
  unfold fetch_and_post_ok.
  destruct w as [wc wg wr ws ww wsl]. simpl in Hch. subst wc.
  cycle_cases.
  all: try congruence.
  all: leb_hyps.
  all: match goal with
       | |- (?P -> _) /\ _ =>
           first
             [ assert (Hok : P) by (eexists _, _; repeat split; lia)
             | assert (Hok : ~ P)
                 by (intros (r0 & img0 & ? & ? & ? & ?); simplify_eq/=; lia) ]
       end.
  all: split; [|split; [|split]].
  all: try (intros; contradiction).
  all: try (intros; exact Hok).
  all: try (intros _; exact Hretry).
  all: try (intros; congruence).
  all: try (intros _; split; [reflexivity|]; eexists _, _; reflexivity).
  all: try (destruct Hok as (r0 & img0 & ? & ? & ? & ?); simplify_eq/=; lia).
Qed.

Lemma count_calls_app (p : rcall -> bool) (tr tr' : list revent) :
  count_calls p (tr ++ tr') = (count_calls p tr + count_calls p tr')%nat.
Proof. unfold count_calls. rewrite filter_app. apply length_app. Qed.

(** An iteration that finds the recorded signature only sleeps. *)
Lemma cycle_unchanged (w : world) (sig url : string) :
  sees fmt_float w sig url ->
  exists tr res,
    run_cycle fmt_float w (Some sig) = (Some sig, tr, res) /\
    count_calls is_send tr = 0%nat /\
    (res = Ok FContinue \/ res = Ok FBreak).
Proof.
  intros (ch & Hch & Hscan).
  destruct w as [wc wg wr ws ww wsl]. simpl in Hch. subst wc.
  cycle_cases; try congruence; eexists _, _; repeat split; auto.
Qed.

(** An iteration that finds a changed signature, whose fetch and post
    succeed, posts once and records the signature. *)
Lemma cycle_changed_success (w : world) (ls : option string) (sig url : string) :
  sees fmt_float w sig url ->
  str_truthy url = true ->
  ls <> Some sig ->
  fetch_and_post_ok w ->
  exists tr res,
    run_cycle fmt_float w ls = (Some sig, tr, res) /\
    count_calls is_send tr = 1%nat /\
    (res = Ok FContinue \/ res = Err CancelledError).
Proof.
  intros (ch & Hch & Hscan) Hurl Hne (r & img & Hg & Hst & Hr & Hs).
  pose proof (scan_messages_truthy _ _ _ _ Hscan) as Hsig.
  apply Z.leb_gt in Hst.
  destruct w as [wc wg wr ws ww wsl]. simpl in *. subst.
  cycle_cases; try congruence; eexists _, _; repeat split; auto.
Qed.

(** C2 (amended). Two consecutive iterations find the same signature.  When
    it differs from the recorded one and the fetch and the post of the first
    iteration succeed, exactly one post is issued in all and the signature is
    recorded; and an iteration that finds the recorded signature issues no
    post and changes nothing. *)
Theorem unchanged_image_not_reposted
    (w1 w2 : world) (ls : option string) (sig url : string) :
  sees fmt_float w1 sig url ->
  sees fmt_float w2 sig url ->
  str_truthy url = true ->
  ls <> Some sig ->
  fetch_and_post_ok w1 ->
  (let '(ls', tr, st) := runner_loop fmt_float [w1; w2] ls in
   count_calls is_send tr = 1%nat /\ ls' = Some sig) /\
  (let '(ls', tr, res) := run_cycle fmt_float w2 (Some sig) in
   count_calls is_send tr = 0%nat /\ ls' = Some sig).
Proof.
  intros Hsees1 Hsees2 Hurl Hne Hok.
  destruct (cycle_changed_success w1 ls sig url Hsees1 Hurl Hne Hok)
    as (tr1 & res1 & E1 & Hc1 & Hres1).
  destruct (cycle_unchanged w2 sig url Hsees2) as (tr2 & res2 & E2 & Hc2 & Hres2).
  split.
  - simpl. rewrite E1.
    destruct Hres1 as [-> | ->].
    + rewrite E2.
      destruct Hres2 as [-> | ->]; rewrite ?app_nil_r, count_calls_app, Hc1, Hc2;
        split; reflexivity.
    + split; [exact Hc1 | reflexivity].
  - rewrite E2. split; [exact Hc2 | reflexivity].
Qed.

End Loop.

(** ** The command *)

Section Command.
Variable owner : Z.
Variable source_id : Z.

Lemma is_owner_other (uid : Z) : uid <> owner -> is_owner owner uid = false.
Proof.
  intros H. unfold is_owner.
  destruct (Z.eqb_spec uid owner) as [->|_]; [contradiction|].
  apply andb_false_r.
Qed.

(** What a command does when [is_owner] fails. *)
Lemma run_denied (w : bworld) (i : interaction) (mode : string)
    (out : option channel_obj) (st : bot_state) :
  is_owner owner (user_id i) = false ->
  run_command w (archieved owner source_id i mode out) st =
    (st, [BSend "❌ Owner-only command." true (outcome_of (bw_send w))], bw_send w).
Proof.
  intros H. unfold run_command, archieved, deny_if_not_owner. rewrite H. cbn.
  destruct (bw_send w) as [[]|e]; reflexivity.
Qed.

(** C9. A command of a caller other than the configured owner is answered
    with the ephemeral rejection and nothing else: the registry and the
    tasks are as before, when the command is handled alone and also when it
    is suspended at its answer and resumed later. *)
Theorem non_owner_is_rejected (w : bworld) (i : interaction) (mode : string)
    (out : option channel_obj) (st : bot_state) :
  user_id i <> owner ->
  run_command w (archieved owner source_id i mode out) st =
    (st, [BSend "❌ Owner-only command." true (outcome_of (bw_send w))], bw_send w) /\
  (exists c,
     schedule w [Spawn (archieved owner source_id i mode out); Resume 0%nat] [] st =
       (st, [BSend "❌ Owner-only command." true (outcome_of (bw_send w))], [c]) /\
     c = match bw_send w with Ok _ => Ret tt | Err e => Raise e end).
Proof.
  intros H. apply is_owner_other in H. split; [apply run_denied, H|].
  unfold schedule, archieved, deny_if_not_owner. rewrite H. cbn.
  destruct (bw_send w) as [[]|e]; eexists; split; reflexivity.
Qed.

(** C8. A [stop] of the owner.  With a task under the key that is not done,
    the task is cancelled, its entry is removed, and the answer is the
    success message.  With no entry, or with a task that is done, the answer
    is that nothing runs; no task is cancelled and the tasks are as before. *)
Theorem stop_request (w : bworld) (i : interaction) (mode : string)
    (out : option channel_obj) (st : bot_state) :
  is_owner owner (user_id i) = true ->
  strip (lower mode) = "stop" ->
  let k := (default 0 (guild_id i), user_id i) in
  let '(st', tr, res) := run_command w (archieved owner source_id i mode out) st in
  (forall h t,
     _active_archives st !! k = Some h ->
     loop_tasks st !! h = Some t ->
     t_status t = Pending ->
     _active_archives st' = delete k (_active_archives st) /\
     loop_tasks st' !! h = Some (set_status Cancelling t) /\
     (forall h', h' <> h -> loop_tasks st' !! h' = loop_tasks st !! h') /\
     tr = [BCancel h; BSend "🛑 /archieved stopped." true (outcome_of (bw_send w))] /\
     res = bw_send w) /\
  ((_active_archives st !! k = None \/
    exists h, _active_archives st !! k = Some h /\ task_done st h = true) ->
   _active_archives st' = delete k (_active_archives st) /\
   loop_tasks st' = loop_tasks st /\
   tr = [BSend "No active /archieved running." true (outcome_of (bw_send w))] /\
   res = bw_send w).
Proof.
  intros Hown Hmode k.
  unfold run_command, archieved, deny_if_not_owner. rewrite Hown. cbn.
  rewrite Hmode. cbn. fold k.
  assert (Hd : forall m h,
             task_done {| _active_archives := m; loop_tasks := loop_tasks st |} h =
             task_done st h) by reflexivity.
  destruct (_active_archives st !! k) as [h|] eqn:Hk; cbn.
  - rewrite Hd. destruct (task_done st h) eqn:Hdone; cbn.
    + destruct (bw_send w) as [[]|e]; cbn.
      all: split; [|intros _; repeat split; reflexivity].
      all: intros h' t [= <-] Ht Hst; unfold task_done in Hdone;
        rewrite Ht, Hst in Hdone; discriminate.
    + destruct (bw_send w) as [[]|e]; cbn.
      all: split; [|intros [?|(h' & ? & ?)]; simplify_eq; congruence].
      all: intros h' t [= <-] Ht Hst; split; [reflexivity|].
      all: split; [rewrite list_lookup_alter_eq, Ht; simpl; rewrite Hst; reflexivity|].
      all: split; [intros h'' Hne; apply list_lookup_alter_ne; congruence|].
      all: split; reflexivity.
  - destruct (bw_send w) as [[]|e]; cbn.
    all: split; [intros h t [=]|intros _; repeat split; reflexivity].
Qed.

End Command.

(** C10. With the owner identity left at [0], [is_owner] is false for every
    caller, the caller [0] included; every command is answered with the
    rejection and leaves the state as it was, so that no sequence of
    commands creates a task. *)
Theorem unconfigured_owner_rejects_everyone (source_id : Z) :
  (forall uid, is_owner 0 uid = false) /\
  is_owner 0 0 = false /\
  (forall w i mode out st,
     run_command w (archieved 0 source_id i mode out) st =
       (st, [BSend "❌ Owner-only command." true (outcome_of (bw_send w))], bw_send w)) /\
  (forall w (reqs : list (interaction * string * option channel_obj)) st,
     (run_commands w
        (map (fun '(i, mode, out) => archieved 0 source_id i mode out) reqs) st).1 = st).
Proof.
  assert (H0 : forall uid, is_owner 0 uid = false) by reflexivity.
  split; [exact H0|]. split; [reflexivity|].
  assert (H1 : forall w i mode out st,
             run_command w (archieved 0 source_id i mode out) st =
               (st, [BSend "❌ Owner-only command." true (outcome_of (bw_send w))], bw_send w)).
  { intros. apply run_denied, H0. }
  split; [exact H1|].
  intros w reqs. induction reqs as [|[[i mode] out] reqs IH]; intros st; simpl.
  - reflexivity.
  - rewrite H1. specialize (IH st).
    destruct (run_commands w _ st) as [st2 tr']. simpl in *. exact IH.
Qed.

(** ** The registry under commands handled one after the other *)

Lemma filter_none {A} (P : A -> Prop) `{!forall x, Decision (P x)} (l : list A) :
  Forall (fun x => ~ P x) l -> filter P l = [].
Proof.
  induction 1 as [|x l Hx _ IH]; [reflexivity|].
  rewrite filter_cons. case_decide; [contradiction | exact IH].
Qed.

Lemma live_under_spec (k : key) (t : task) :
  live_under k t = true <-> t_key t = k /\ t_status t = Pending.
Proof.
  unfold live_under. rewrite andb_true_iff, bool_decide_eq_true.
  destruct (t_status t); intuition congruence.
Qed.

Lemma key_free_no_live (k : key) (st : bot_state) :
  key_free k st -> live_tasks st k = [].
Proof.
  intros H. unfold live_tasks. apply filter_none, Forall_forall.
  intros t Ht Hl. apply live_under_spec in Hl as [Hk Hs].
  apply list_elem_of_lookup in Ht as [h Hh]. exact (H h t Hh Hs Hk).
Qed.


(** The registry entry of [k] is popped, and its task cancelled unless done. *)
Lemma pop_and_cancel (st : bot_state) (k : key) :
  tracked st ->
  let st1 := {| _active_archives := delete k (_active_archives st);
                loop_tasks := loop_tasks st |} in
  match _active_archives st !! k with
  | Some h =>
      (task_done st h = true -> tracked st1 /\ key_free k st1) /\
      (tracked (task_cancel st1 h) /\ key_free k (task_cancel st1 h))
  | None => tracked st1 /\ key_free k st1
  end.
Proof.
  intros Htr. simpl.
  assert (Hother : forall h t, loop_tasks st !! h = Some t -> t_status t = Pending ->
            t_key t <> k -> delete k (_active_archives st) !! t_key t = Some h).
  { intros h t Ht Hs Hk. rewrite lookup_delete_ne by congruence. apply Htr; assumption. }
  destruct (_active_archives st !! k) as [h|] eqn:Hk.
  - assert (Hfree : forall h' t, h' <> h -> loop_tasks st !! h' = Some t ->
              t_status t = Pending -> t_key t <> k).
    { intros h' t Hne Ht Hs Hkt. pose proof (Htr h' t Ht Hs) as H'.
      rewrite Hkt in H'. congruence. }
    split.
    + intros Hdone. unfold task_done in Hdone.
      assert (Hfree' : key_free k {| _active_archives := delete k (_active_archives st);
                                     loop_tasks := loop_tasks st |}).
      { intros h' t Ht Hs. simpl in Ht. destruct (decide (h' = h)) as [->|Hne].
        - rewrite Ht, Hs in Hdone. discriminate.
        - eapply Hfree; eassumption. }
      split; [|exact Hfree'].
      intros h' t Ht Hs. simpl in *. apply Hother; try assumption.
      eapply Hfree'; eassumption.
    + assert (Hfree' : key_free k (task_cancel {| _active_archives := delete k (_active_archives st);
                                     loop_tasks := loop_tasks st |} h)).
      { intros h' t Ht Hs. simpl in Ht. destruct (decide (h' = h)) as [->|Hne].
        - rewrite list_lookup_alter_eq in Ht.
          destruct (loop_tasks st !! h) as [t0|]; [|discriminate].
          simpl in Ht. injection Ht as <-.
          destruct (t_status t0) eqn:E; simpl in Hs; congruence.
        - rewrite list_lookup_alter_ne in Ht by congruence. eapply Hfree; eassumption. }
      split; [|exact Hfree'].
      intros h' t Ht Hs. simpl. pose proof (Hfree' h' t Ht Hs) as Hkt.
      simpl in Ht. destruct (decide (h' = h)) as [->|Hne].
      * rewrite list_lookup_alter_eq in Ht.
        destruct (loop_tasks st !! h) as [t0|]; [|discriminate].
        simpl in Ht. injection Ht as <-.
        destruct (t_status t0) eqn:E; simpl in Hs; congruence.
      * rewrite list_lookup_alter_ne in Ht by congruence.
        apply Hother; assumption.
  - assert (Hfree' : key_free k {| _active_archives := delete k (_active_archives st);
                                     loop_tasks := loop_tasks st |}).
    { intros h' t Ht Hs Hkt. simpl in Ht. pose proof (Htr h' t Ht Hs) as H'.
      rewrite Hkt in H'. congruence. }
    split; [|exact Hfree'].
    intros h' t Ht Hs. simpl in *. apply Hother; try assumption.
    eapply Hfree'; eassumption.
Qed.

(** A task is created under a free key and registered. *)
Lemma create_and_register (st : bot_state) (k : key) (source out : channel_obj) :
  tracked st -> key_free k st ->
  let t := {| t_key := k; t_source := source; t_out := out; t_status := Pending |} in
  let st1 := {| _active_archives := <[k := length (loop_tasks st)]> (_active_archives st);
                loop_tasks := loop_tasks st ++ [t] |} in
  tracked st1 /\ live_tasks st1 k = [t].
Proof.
  intros Htr Hfree t st1. split.
  - intros h t' Ht' Hs. simpl in *.
    apply lookup_app_Some in Ht' as [Ht' | [Hlen Ht']].
    + rewrite lookup_insert_ne by (symmetry; eapply Hfree; eassumption).
      apply Htr; assumption.
    + destruct (h - length (loop_tasks st))%nat as [|n] eqn:E; [|destruct n; discriminate].
      injection Ht' as <-. simpl. rewrite lookup_insert_eq. f_equal. lia.
  - unfold live_tasks. simpl. rewrite filter_app.
    fold (live_tasks st k). rewrite (key_free_no_live k st Hfree). simpl.
    rewrite filter_cons. case_decide as Hl; [reflexivity|].
    exfalso. apply Hl. apply live_under_spec. split; reflexivity.
Qed.

Ltac command_head :=
  match goal with
  | u : unit |- _ => destruct u
  | |- context [task_done {| _active_archives := ?m; loop_tasks := loop_tasks ?st |} ?h] =>
      change (task_done {| _active_archives := m; loop_tasks := loop_tasks st |} h)
        with (task_done st h)
  | |- context [is_owner ?o ?u] => destruct (is_owner o u) eqn:?
  | |- context [String.eqb ?a ?b] => destruct (String.eqb a b) eqn:?
  | |- context [Z.eqb ?a ?b] => destruct (Z.eqb a b) eqn:?
  | |- context [bw_cache ?w ?c] => destruct (bw_cache w c) eqn:?
  | |- context [bw_fetch ?w ?c] => destruct (bw_fetch w c) eqn:?
  | |- context [ch_is_text ?c] => destruct (ch_is_text c) eqn:?
  | |- context [i_channel ?i] => destruct (i_channel i) eqn:?
  | |- context [_active_archives ?st !! ?k] => destruct (_active_archives st !! k) eqn:?
  | |- context [task_done ?st ?h] => destruct (task_done st h) eqn:?
  | |- context [bw_send ?w] => destruct (bw_send w) as [[]|?] eqn:?
  | |- context [match ?x with _ => _ end] => is_var x; destruct x
  end.

Ltac command_cases :=
  unfold run_command, archieved, deny_if_not_owner, archieved_stop,
    archieved_start, get_text_channel;
  cbn;
  repeat (command_head; cbn).


(** X18. From a registry that tracks its live tasks, a command that creates
    a task leaves exactly one live task under its key. *)
Lemma start_creates_the_only_live_task (owner source_id : Z) (w : bworld)
    (i : interaction) (mode : string) (out : option channel_obj) (st : bot_state) :
  tracked st ->
  let k := (default 0 (guild_id i), user_id i) in
  let '(st', tr, res) := run_command w (archieved owner source_id i mode out) st in
  forall h, BCreate h ∈ tr -> length (live_tasks st' k) = 1%nat.
Proof.
  intros Htr k.
  pose proof (pop_and_cancel st k Htr) as Hp.
  cbv zeta in Hp. subst k.
  command_cases.
  all: intros h_ Hin.
  all: try (repeat (apply elem_of_cons in Hin as [Hin|Hin]; [discriminate Hin|]);
            apply elem_of_nil in Hin; contradiction).
  all: repeat match goal with
              | H : _ /\ _ |- _ => destruct H
              | H : ?a = ?a -> _ |- _ => specialize (H eq_refl)
              end.
  all: match goal with
       | Ht : tracked ?X, Hf : key_free ?k ?X |- _ =>
           exact (f_equal length (proj2 (create_and_register X k _ _ Ht Hf)))
       end.
Qed.


(** The delivery of a cancellation turns no task into a live one. *)
Lemma tracked_deliver_cancel (st : bot_state) (h : nat) :
  tracked st -> tracked (deliver_cancel st h).
Proof.
  intros Htr h' t Ht Hs. simpl in *.
  destruct (decide (h = h')) as [->|Hne].
  - rewrite list_lookup_alter_eq in Ht.
    destruct (loop_tasks st !! h') as [t0|] eqn:E; [|discriminate].
    simpl in Ht. injection Ht as <-.
    destruct (t_status t0) eqn:E'; simpl in Hs; try congruence.
    apply Htr; [exact E | exact E'].
  - rewrite list_lookup_alter_ne in Ht by exact Hne. apply Htr; assumption.
Qed.


(** C4. Two [start] commands of the owner under one key.  Handled one after
    the other, the first task is cancelled and one live task is left.
    Handled overlapping, the second one started while the first is suspended
    at its answer, both find the registry empty: no task is cancelled, two
    live tasks are left under the key, and the registry holds the second. *)
Theorem overlapping_starts_leave_two_live_tasks :
  let start := archieved 42 9 owner_call "start" None in
  (let '(st, tr, pool) :=
     schedule bworld_ok [Spawn start; Resume 0%nat; Spawn start; Resume 1%nat]
       [] initial_state in
   length (live_tasks st (7, 42)) = 1%nat /\
   _active_archives st !! (7, 42) = Some 1%nat /\
   pool = [Ret tt; Ret tt]) /\
  (let '(st, tr, pool) :=
     schedule bworld_ok [Spawn start; Spawn start; Resume 0%nat; Resume 1%nat]
       [] initial_state in
   length (live_tasks st (7, 42)) = 2%nat /\
   _active_archives st !! (7, 42) = Some 1%nat /\
   forallb (fun ev => match ev with BCancel _ => false | _ => true end) tr = true /\
   pool = [Ret tt; Ret tt]).
Proof.
  vm_compute. repeat split; reflexivity.
Qed.

(** ** Instances on the sample data *)

(** An embed image counts when no attachment of the message is an image, and
    the newest message with an image hides the older ones. *)
Example embed_of_newest_message :
  scan_messages sample_fmt (history 30 [msg_A; msg_C; msg_B]) =
    (Some "3:0:y.png", Some "y.png").
Proof. reflexivity. Qed.

(** A message edited at second [1700000000] carries that time in its
    signature. *)
Example edited_message_signature :
  make_sig sample_fmt 2 (Some 1700000000) "x.png" = "2:1700000000.0:x.png".
Proof. reflexivity. Qed.

(** Three iterations: the image is posted, then found unchanged, then a
    newer image is posted; two posts in all. *)
Example three_iterations :
  let '(ls', tr, st) :=
    runner sample_fmt
      [world_ok; world_ok; world_of [msg_C; msg_A; msg_B] (Ok tt)] in
  ls' = Some "3:0:y.png" /\ count_calls is_send tr = 2%nat /\ st = RUNNING.
Proof. vm_compute. repeat split; reflexivity. Qed.

(** A cancellation during the fetch ends the loop; the next world is never
    looked at. *)
Example cancelled_during_fetch :
  runner sample_fmt [world_cancelled; world_ok] =
    (None,
     [(CHistory 30, Returned); (CGet "x.png", Raised CancelledError)],
     ENDED (Ok tt)).
Proof. reflexivity. Qed.

Lemma find_latest_image_newest_first_witness :
  exists res,
    run (exec_rop world_ok) (find_latest_image sample_fmt) None =
      (None, [(CHistory 30, Returned)], Ok res) /\
    res = (Some "2:0:x.png", Some "x.png").
Proof.
  destruct (find_latest_image_newest_first sample_fmt world_ok [msg_A; msg_B] None eq_refl)
    as (res & Hrun & _ & Hnewest).
  exists res. split; [exact Hrun|].
  destruct (Hnewest [msg_A] msg_B [] eq_refl) as [Hatt _].
  - constructor; [|constructor]. split; constructor.
  - apply (Hatt [] _ [] eq_refl); [constructor | reflexivity].
Defined.

Lemma signature_components_witness :
  make_sig sample_fmt 2 None "x.png" = make_sig sample_fmt 2 (Some 0) "x.png" <->
  2 = 2 /\ None = Some 0 /\ "x.png" = "x.png".
Proof.
  apply (signature_components sample_fmt
           sample_fmt_colon_free sample_fmt_inj sample_fmt_not_zero).
Defined.

Lemma errors_reported_and_loop_continues_witness :
  exists o,
    [(CSend (warning_text (Exception "HTTPException" "500")) None, Returned);
     (CSleep POLL_SECONDS, Returned)] =
    [(CSend (warning_text (Exception "HTTPException" "500")) None, o);
     (CSleep POLL_SECONDS, Returned)].
Proof.
  destruct (errors_reported_and_loop_continues sample_fmt world_post_fails None
              _ _ _ eq_refl eq_refl) as (_ & Hreport & _).
  apply (Hreport
           [(CHistory 30, Returned); (CGet "x.png", Returned);
            (CRaiseForStatus, Returned); (CRead, Returned)]
           (CSend archive_caption (Some ("archived.png", [])))
           "HTTPException" "500" _ eq_refl eq_refl).
Defined.

Lemma signature_recorded_only_after_success_witness :
  let '(ls', tr, res) := run_cycle sample_fmt world_post_fails None in
  ls' = None.
Proof.
  assert (Hsees : sees sample_fmt world_post_fails "2:0:x.png" "x.png").
  { exists [msg_A; msg_B]. split; reflexivity. }
  assert (Hne : (None : option string) <> Some "2:0:x.png") by discriminate.
  pose proof (signature_recorded_only_after_success sample_fmt world_post_fails
                None "2:0:x.png" "x.png" Hsees eq_refl Hne) as H.
  destruct (run_cycle sample_fmt world_post_fails None) as [[ls' tr] res].
  destruct H as (_ & _ & Hfail & _). apply Hfail.
  intros (r & img & _ & _ & _ & Hsend). discriminate Hsend.
Defined.

Lemma unchanged_image_not_reposted_witness :
  let '(ls', tr, st) := runner_loop sample_fmt [world_ok; world_ok] None in
  count_calls is_send tr = 1%nat /\ ls' = Some "2:0:x.png".
Proof.
  assert (Hsees : sees sample_fmt world_ok "2:0:x.png" "x.png").
  { exists [msg_A; msg_B]. split; reflexivity. }
  assert (Hne : (None : option string) <> Some "2:0:x.png") by discriminate.
  assert (Hok : fetch_and_post_ok world_ok).
  { exists resp_ok, []. repeat split; reflexivity. }
  exact (proj1 (unchanged_image_not_reposted sample_fmt world_ok world_ok None
                  "2:0:x.png" "x.png" Hsees Hsees eq_refl Hne Hok)).
Defined.

(** C2, as stated, fails.  Two iterations both find ["2:0:x.png"]: when the
    post of the first one fails, the image is posted again by the second one,
    and with the warning three posts are issued; when the signature is
    already recorded, no post is issued at all. *)
Lemma same_signature_twice_counterexample :
  sees sample_fmt world_post_fails "2:0:x.png" "x.png" /\
  sees sample_fmt world_ok "2:0:x.png" "x.png" /\
  (let '(ls', tr, st) := runner sample_fmt [world_post_fails; world_ok] in
   count_calls is_archive_post tr = 2%nat /\
   count_calls is_send tr = 3%nat /\
   count_calls is_send tr <> 1%nat) /\
  (let '(ls', tr, st) :=
     runner_loop sample_fmt [world_ok; world_ok] (Some "2:0:x.png") in
   count_calls is_send tr = 0%nat /\
   count_calls is_send tr <> 1%nat).
Proof.
  split; [exists [msg_A; msg_B]; split; reflexivity|].
  split; [exists [msg_A; msg_B]; split; reflexivity|].
  vm_compute. repeat split; discriminate.
Qed.

Lemma stop_request_witness :
  let '(st', tr, res) :=
    run_command bworld_ok (archieved 42 9 owner_call " Stop " None) one_running in
  _active_archives st' = delete (7, 42) (_active_archives one_running) /\
  tr = [BCancel 0%nat; BSend "🛑 /archieved stopped." true Returned].
Proof.
  pose proof (stop_request 42 9 bworld_ok owner_call " Stop " None one_running
                eq_refl eq_refl) as H.
  cbv zeta in H.
  destruct (run_command bworld_ok (archieved 42 9 owner_call " Stop " None) one_running)
    as [[st' tr] res].
  destruct H as [H _].
  destruct (H 0%nat _ eq_refl eq_refl eq_refl) as (Hreg & _ & _ & Htr & _).
  split; [exact Hreg | exact Htr].
Defined.

Lemma non_owner_is_rejected_witness :
  run_command bworld_ok (archieved 42 9 stranger_call "start" None) one_running =
    (one_running, [BSend "❌ Owner-only command." true Returned], Ok tt).
Proof.
  assert (Hne : user_id stranger_call <> 42) by discriminate.
  exact (proj1 (non_owner_is_rejected 42 9 bworld_ok stranger_call "start" None
                  one_running Hne)).
Defined.

(** * Further properties of the loop *)

Section LoopMore.
Context {timestamp : Type} (fmt_float : timestamp -> string).

#[local] Abbreviation world := (world timestamp).

(** X1. Only the 30 newest messages count: what lies behind them in the
    channel changes nothing of what [find_latest_image] does. *)
Theorem find_latest_image_window
    (w w' : world) (recent older : channel_log timestamp) (ls : option string) :
  length recent = 30%nat ->
  w_channel w = Ok (recent ++ older) ->
  w_channel w' = Ok recent ->
  run (exec_rop w) (find_latest_image fmt_float) ls =
    run (exec_rop w') (find_latest_image fmt_float) ls /\
  (Forall no_image recent ->
   run (exec_rop w) (find_latest_image fmt_float) ls =
     (ls, [(CHistory 30, Returned)], Ok (None, None))).
Proof.
  intros Hlen Hw Hw'.
  rewrite (run_find_latest_image fmt_float w _ ls Hw).
  rewrite (run_find_latest_image fmt_float w' _ ls Hw').
  assert (Ht : history 30 (recent ++ older) = recent).
  { unfold history. rewrite <- Hlen. apply take_app_length. }
  assert (Ht' : history 30 recent = recent).
  { unfold history. apply take_ge. lia. }
  rewrite Ht, Ht'. split; [reflexivity|].
  intros Hno. rewrite scan_messages_none by exact Hno. reflexivity.
Qed.

Lemma scan_attachments_origin (m : message timestamp) (atts : list attachment)
    (sig url : string) :
  scan_attachments fmt_float m atts = Some (sig, url) ->
  exists a, a ∈ atts /\ is_image_attachment a = true /\ url = a_url a.
Proof.
  induction atts as [|a atts IH]; simpl; [discriminate|].
  destruct (is_image_attachment a) eqn:Ha.
  - intros [= <- <-]. exists a. split; [left|]. split; [exact Ha | reflexivity].
  - intros H. destruct (IH H) as (a' & Hin & Himg & Hurl).
    exists a'. split; [right; exact Hin|]. split; assumption.
Qed.

Lemma scan_embeds_origin (m : message timestamp) (es : list embed)
    (sig url : string) :
  scan_embeds fmt_float m es = Some (sig, url) ->
  exists e, e ∈ es /\ embed_image_url e = Some url.
Proof.
  induction es as [|e es IH]; simpl; [discriminate|].
  destruct (embed_image_url e) as [u|] eqn:He.
  - intros [= <- <-]. exists e. split; [left | exact He].
  - intros H. destruct (IH H) as (e' & Hin & Hurl).
    exists e'. split; [right; exact Hin | exact Hurl].
Qed.

(** X2. The two results of the extractor come together: both absent, or a
    signature and a URL, where the URL is that of an image attachment or of
    an embed image of a message of the window, and the signature is built
    from that message and that URL. *)
Theorem find_latest_image_results (ch : channel_log timestamp) :
  scan_messages fmt_float (history 30 ch) = (None, None) \/
  exists m sig url,
    scan_messages fmt_float (history 30 ch) = (Some sig, Some url) /\
    m ∈ take 30 ch /\
    sig = make_sig fmt_float (m_id m) (edited_at m) url /\
    ((exists a, a ∈ attachments m /\ is_image_attachment a = true /\ url = a_url a) \/
     (exists e, e ∈ embeds m /\ embed_image_url e = Some url /\ str_truthy url = true)).
Proof.
  unfold history. induction (take 30 ch) as [|m msgs IH]; simpl; [left; reflexivity|].
  destruct (scan_message fmt_float m) as [[sig url]|] eqn:Hm.
  - right. exists m, sig, url. split; [reflexivity|]. split; [left|].
    unfold scan_message in Hm.
    destruct (scan_attachments fmt_float m (attachments m)) as [[s u]|] eqn:Ha.
    + injection Hm as <- <-. split; [eapply scan_attachments_sig, Ha|].
      left. eapply scan_attachments_origin, Ha.
    + destruct (scan_embeds_sig fmt_float _ _ _ _ Hm) as [Hsig Htr].
      split; [exact Hsig|]. right.
      destruct (scan_embeds_origin _ _ _ _ Hm) as (e & Hin & He).
      exists e. repeat split; assumption.
  - destruct IH as [IH | (m' & sig & url & Hscan & Hin & Hrest)]; [left; exact IH|].
    right. exists m', sig, url. split; [exact Hscan|]. split; [right; exact Hin|].
    exact Hrest.
Qed.

(** X3. When the extractor finds nothing, or a URL that is empty, the
    iteration only sleeps: no fetch, no post, and the recorded signature is
    as before. *)
Theorem nothing_found_only_sleeps
    (w : world) (ls : option string) (ch : channel_log timestamp)
    (sig url : option string) :
  w_channel w = Ok ch ->
  scan_messages fmt_float (history 30 ch) = (sig, url) ->
  opt_truthy sig = false \/ opt_truthy url = false ->
  run_cycle fmt_float w ls =
    (ls,
     [(CHistory 30, Returned); (CSleep POLL_SECONDS, outcome_of (sleep_answer w))],
     if w_cancel_in_sleep w then Ok FBreak else Ok FContinue).
Proof.
  intros Hch Hscan Hnone.
  destruct w as [wc wg wr ws ww wsl]. simpl in Hch. subst wc.
  assert (Hb : negb (opt_truthy sig) || negb (opt_truthy url) = true).
  { destruct Hnone as [-> | ->]; [reflexivity | apply orb_true_r]. }
  unfold run_cycle, cycle, cycle_try, find_latest_image. cbn.
  rewrite Hscan. cbn. rewrite Hb. cbn.
  unfold sleep_answer. cbn. destruct wsl; reflexivity.
Qed.

(** X4. What is posted as the archive is the fetched body unchanged, named
    [archived.png], under the fixed caption; and it is posted only after the
    history, the GET of the URL the extractor yielded, the status check and
    the read have all returned. *)
Theorem archive_post_passes_bytes_through
    (w : world) (ls : option string) (pre post : list revent)
    (content : string) (f : string * bytes) (o : outcome) :
  (run_cycle fmt_float w ls).1.2 = pre ++ (CSend content (Some f), o) :: post ->
  content = archive_caption /\
  exists sig url img,
    sees fmt_float w sig url /\
    w_read w = Ok img /\
    f = ("archived.png", img) /\
    pre = [(CHistory 30, Returned); (CGet url, Returned);
           (CRaiseForStatus, Returned); (CRead, Returned)].
Proof.
  destruct w as [wc wg wr ws ww wsl].
  cycle_cases.
  all: intros Hcut; cut_cases.
  all: split; [reflexivity|].
  all: eexists _, _, _; split; [eexists; split; [reflexivity|eassumption]|].
  all: repeat split; reflexivity.
Qed.

(** X5. An iteration starts with the history request and issues one archive
    post, one warning post and one sleep at most; an iteration that goes on
    to the next one has slept [POLL_SECONDS], once, as its last call. *)
Theorem iteration_sleeps_once (w : world) (ls : option string) :
  let '(ls', tr, res) := run_cycle fmt_float w ls in
  (exists o rest, tr = (CHistory 30, o) :: rest) /\
  (count_calls is_archive_post tr <= 1)%nat /\
  (count_calls is_warning_post tr <= 1)%nat /\
  (count_calls is_sleep tr <= 1)%nat /\
  (res = Ok FContinue ->
   exists pre,
     tr = pre ++ [(CSleep POLL_SECONDS, Returned)] /\
     count_calls is_sleep pre = 0%nat).
Proof.
  destruct w as [wc wg wr ws ww wsl].
  cycle_cases.
  all: split; [eexists _, _; reflexivity|].
  all: split; [vm_compute; lia|].
  all: split; [vm_compute; lia|].
  all: split; [vm_compute; lia|].
  all: intros Hres; try discriminate Hres.
  all: first
    [ eexists [_]; split; reflexivity
    | eexists [_; _]; split; reflexivity
    | eexists [_; _; _]; split; reflexivity
    | eexists [_; _; _; _]; split; reflexivity
    | eexists [_; _; _; _; _]; split; reflexivity
    | eexists [_; _; _; _; _; _]; split; reflexivity ].
Qed.

(** X6. A response with a status of 400 or more is not read and not posted:
    the status check raises [ClientResponseError], the warning post reports
    it, and the recorded signature is as before. *)
Theorem error_status_is_not_posted
    (w : world) (ls : option string) (sig url : string) (r : http_response) :
  sees fmt_float w sig url ->
  str_truthy url = true ->
  ls <> Some sig ->
  w_get w = Ok r ->
  400 <= status r ->
  let '(ls', tr, res) := run_cycle fmt_float w ls in
  ls' = ls /\
  count_calls is_read tr = 0%nat /\
  count_calls is_archive_post tr = 0%nat /\
  exists rest,
    tr = [(CHistory 30, Returned); (CGet url, Returned);
          (CRaiseForStatus, Raised (Exception "ClientResponseError" (error_text r)));
          (CSend (warning_text (Exception "ClientResponseError" (error_text r))) None,
           outcome_of (w_warn w))] ++ rest.
Proof.
  intros (ch & Hch & Hscan) Hurl Hne Hget Hst.
  pose proof (scan_messages_truthy _ _ _ _ Hscan) as Hsig.
  apply Z.leb_le in Hst.
  destruct w as [wc wg wr ws ww wsl]. simpl in *. subst.
  cycle_cases; try congruence.
  all: split; [reflexivity|].
  all: split; [vm_compute; reflexivity|].
  all: split; [vm_compute; reflexivity|].
  all: eexists; reflexivity.
Qed.

(** The signature an iteration leaves recorded is the one it found, when
    its fetch and post succeeded, or else the one recorded before. *)
Lemma cycle_recorded (w : world) (ls : option string) :
  let '(ls', tr, res) := run_cycle fmt_float w ls in
  ls' = ls \/
  exists sig url, sees fmt_float w sig url /\ fetch_and_post_ok w /\ ls' = Some sig.
Proof.
  unfold sees, fetch_and_post_ok.
  destruct w as [wc wg wr ws ww wsl].
  cycle_cases.
  all: try (left; reflexivity).
  all: leb_hyps.
  all: right; eexists _, _; split; [eexists; split; [reflexivity|eassumption]|].
  all: split; [eexists _, _; repeat split; lia | reflexivity].
Qed.

(** X7. Whatever the loop has recorded as last signature is either what it
    started with or a signature the extractor yielded in an iteration whose
    fetch and post both succeeded. *)
Theorem recorded_signature_was_posted (ws : list world) (ls : option string) :
  let '(ls', tr, st) := runner_loop fmt_float ws ls in
  ls' = ls \/
  exists w sig url,
    w ∈ ws /\ sees fmt_float w sig url /\ fetch_and_post_ok w /\ ls' = Some sig.
Proof.
  revert ls. induction ws as [|w ws IH]; intros ls; simpl; [left; reflexivity|].
  pose proof (cycle_recorded w ls) as Hc.
  destruct (run_cycle fmt_float w ls) as [[ls1 tr] res].
  assert (Hhere : ls1 = ls \/
            exists w0 sig url, w0 ∈ w :: ws /\ sees fmt_float w0 sig url /\
              fetch_and_post_ok w0 /\ ls1 = Some sig).
  { destruct Hc as [-> | (sig & url & Hs & Hok & ->)]; [left; reflexivity|].
    right. exists w, sig, url. split; [left|]. repeat split; assumption. }
  specialize (IH ls1).
  destruct (runner_loop fmt_float ws ls1) as [[ls2 tr'] st].
  assert (Hlater : ls2 = ls \/
            exists w0 sig url, w0 ∈ w :: ws /\ sees fmt_float w0 sig url /\
              fetch_and_post_ok w0 /\ ls2 = Some sig).
  { destruct IH as [-> | (w0 & sig & url & Hin & Hs & Hok & ->)]; [exact Hhere|].
    right. exists w0, sig, url. split; [right; exact Hin|]. repeat split; assumption. }
  destruct res as [[| |]|e]; assumption.
Qed.

Lemma cycle_unchanged_posts (w : world) (sig url : string) :
  sees fmt_float w sig url ->
  exists tr res,
    run_cycle fmt_float w (Some sig) = (Some sig, tr, res) /\
    count_calls is_send tr = 0%nat /\
    (res = Ok FContinue \/ res = Ok FBreak).
Proof.
  intros (ch & Hch & Hscan).
  destruct w as [wc wg wr ws ww wsl]. simpl in Hch. subst wc.
  cycle_cases; try congruence; eexists _, _; repeat split; auto.
Qed.

Lemma cycle_changed_posts (w : world) (ls : option string) (sig url : string) :
  sees fmt_float w sig url ->
  str_truthy url = true ->
  ls <> Some sig ->
  fetch_and_post_ok w ->
  exists tr res,
    run_cycle fmt_float w ls = (Some sig, tr, res) /\
    count_calls is_send tr = 1%nat /\
    count_calls is_archive_post tr = 1%nat /\
    (res = Ok FContinue \/ res = Err CancelledError).
Proof.
  intros (ch & Hch & Hscan) Hurl Hne (r & img & Hg & Hst & Hr & Hs).
  pose proof (scan_messages_truthy _ _ _ _ Hscan) as Hsig.
  apply Z.leb_gt in Hst.
  destruct w as [wc wg wr ws ww wsl]. simpl in *. subst.
  cycle_cases; try congruence; eexists _, _; repeat split; auto.
Qed.

(** Iterations that all find the recorded signature issue no post. *)
Lemma loop_unchanged (ws : list world) (sig url : string) :
  Forall (fun w => sees fmt_float w sig url) ws ->
  let '(ls', tr, st) := runner_loop fmt_float ws (Some sig) in
  ls' = Some sig /\ count_calls is_send tr = 0%nat.
Proof.
  induction 1 as [|w ws Hw _ IH]; simpl; [split; reflexivity|].
  destruct (cycle_unchanged_posts w sig url Hw) as (tr & res & E & Hc & Hres).
  rewrite E.
  destruct (runner_loop fmt_float ws (Some sig)) as [[ls2 tr'] st].
  destruct IH as [-> Hc'].
  destruct Hres as [-> | ->]; (split; [reflexivity|]).
  - rewrite count_calls_app, Hc, Hc'. reflexivity.
  - exact Hc.
Qed.

(** X8. However many iterations in a row find the same changed signature,
    once the fetch and the post of the first one succeed the image is posted
    once, by that first iteration, and no other post is issued, whatever the
    later worlds answer. *)
Theorem same_image_posted_once
    (w : world) (ws : list world) (ls : option string) (sig url : string) :
  Forall (fun w' => sees fmt_float w' sig url) (w :: ws) ->
  fetch_and_post_ok w ->
  str_truthy url = true ->
  ls <> Some sig ->
  let '(ls', tr, st) := runner_loop fmt_float (w :: ws) ls in
  ls' = Some sig /\
  count_calls is_send tr = 1%nat /\
  exists tr1 rest,
    tr = tr1 ++ rest /\
    (run_cycle fmt_float w ls).1.2 = tr1 /\
    count_calls is_archive_post tr1 = 1%nat.
Proof.
  intros Hall Hok Hurl Hne.
  apply Forall_cons in Hall as [Hw Hws].
  destruct (cycle_changed_posts w ls sig url Hw Hurl Hne Hok)
    as (tr & res & E & Hc & Ha & Hres).
  pose proof (loop_unchanged ws sig url Hws) as Hl.
  simpl. rewrite E. simpl.
  destruct Hres as [-> | ->].
  - destruct (runner_loop fmt_float ws (Some sig)) as [[ls2 tr'] st].
    destruct Hl as [-> Hc'].
    split; [reflexivity|]. split; [rewrite count_calls_app, Hc, Hc'; reflexivity|].
    exists tr, tr'. repeat split; assumption.
  - split; [reflexivity|]. split; [exact Hc|].
    exists tr, []. rewrite app_nil_r. repeat split; assumption.
Qed.



End LoopMore.

(** * Further properties of the command *)

Lemma lower_char_space (c : ascii) : is_space c = true -> lower_char c = c.
Proof.
  destruct c as [[] [] [] [] [] [] [] []]; intros H; try discriminate H; reflexivity.
Qed.

Lemma lower_append (a b : string) : lower (a +:+ b) = lower a +:+ lower b.
Proof.
  induction a as [|c a IH]; [reflexivity|].
  rewrite append_cons. simpl. rewrite IH. reflexivity.
Qed.

Lemma lower_all_space (s : string) : all_space s = true -> lower s = s.
Proof.
  induction s as [|c s IH]; simpl; [reflexivity|].
  intros [Hc Hs]%andb_prop. rewrite lower_char_space, IH by assumption. reflexivity.
Qed.

Lemma lstrip_space_append (p s : string) :
  all_space p = true -> lstrip (p +:+ s) = lstrip s.
Proof.
  induction p as [|c p IH]; [reflexivity|].
  intros H. simpl in H. apply andb_prop in H as [Hc Hp].
  rewrite append_cons. simpl. rewrite Hc.
  apply IH, Hp.
Qed.

Lemma rstrip_all_space (p : string) : all_space p = true -> rstrip p = "".
Proof.
  induction p as [|c p IH]; simpl; [reflexivity|].
  intros [Hc Hp]%andb_prop. rewrite IH by exact Hp. rewrite Hc. reflexivity.
Qed.

Lemma rstrip_append_space (s p : string) :
  all_space p = true -> rstrip (s +:+ p) = rstrip s.
Proof.
  intros Hp. induction s as [|c s IH].
  - rewrite append_nil_l. apply rstrip_all_space, Hp.
  - rewrite append_cons. simpl. rewrite IH. reflexivity.
Qed.

Lemma strip_append_space (s p : string) :
  all_space p = true -> strip (s +:+ p) = strip s.
Proof.
  intros Hp. unfold strip. induction s as [|c s IH].
  - rewrite append_nil_l. replace (lstrip p) with (lstrip (p +:+ "")).
    + rewrite lstrip_space_append by exact Hp. reflexivity.
    + f_equal. clear. induction p as [|c p IH]; [reflexivity|].
      rewrite append_cons, IH. reflexivity.
  - rewrite append_cons. simpl. destruct (is_space c); [exact IH|].
    rewrite <- append_cons. apply rstrip_append_space, Hp.
Qed.

Section CommandMore.
Variable owner : Z.
Variable source_id : Z.


(** X11. The mode is read without regard to case and to white space around
    it: two modes that agree once lowered, one of them wrapped in white
    space, make the same command. *)
Theorem mode_is_trimmed_and_case_blind (i : interaction) (pre m1 post m2 : string)
    (out : option channel_obj) :
  all_space pre = true ->
  all_space post = true ->
  lower m1 = lower m2 ->
  archieved owner source_id i (pre +:+ m1 +:+ post) out =
    archieved owner source_id i m2 out.
Proof.
  intros Hpre Hpost Hm.
  assert (Hnorm : strip (lower (pre +:+ m1 +:+ post)) = strip (lower m2)).
  { rewrite !lower_append, Hm, (lower_all_space pre), (lower_all_space post)
      by assumption.
    unfold strip at 1. rewrite lstrip_space_append by exact Hpre.
    fold (strip (lower m2 +:+ post)). apply strip_append_space, Hpost. }
  unfold archieved. rewrite Hnorm. reflexivity.
Qed.

End CommandMore.

(** X12. [get_text_channel] touches neither the registry nor the tasks.  It
    raises for the identifier [0] without looking anything up; a cached
    channel is taken without a fetch; and what it returns is a text channel,
    the cached one or else the fetched one. *)
Theorem get_text_channel_returns_text_channel (w : bworld) (id : Z) (st : bot_state) :
  exists r,
    run (exec_bop w) (get_text_channel id) st = (st, [], r) /\
    (id = 0 -> r = Err (Exception "RuntimeError" "SOURCE_CHANNEL_ID not set.")) /\
    (forall c, id <> 0 -> bw_cache w id = Some c ->
       r = if ch_is_text c then Ok c
           else Err (Exception "RuntimeError" "Source channel is not a text channel.")) /\
    (forall c, r = Ok c ->
       id <> 0 /\ ch_is_text c = true /\
       (bw_cache w id = Some c \/ (bw_cache w id = None /\ bw_fetch w id = Ok c))).
Proof.
  unfold get_text_channel.
  destruct (Z.eqb_spec id 0) as [->|Hid]; cbn.
  { eexists. split; [reflexivity|]. split; [reflexivity|].
    split; [intros c H; contradiction | intros c [=]]. }
  destruct (bw_cache w id) as [c|] eqn:Hc; cbn.
  - destruct (ch_is_text c) eqn:Ht; cbn; eexists; (split; [reflexivity|]).
    all: split; [intros; contradiction|].
    all: split; [intros c' _ [= <-]; rewrite Ht; reflexivity|].
    + intros c' [= <-]. auto.
    + intros c' [=].
  - destruct (bw_fetch w id) as [c|e] eqn:Hf; cbn.
    + destruct (ch_is_text c) eqn:Ht; cbn; eexists; (split; [reflexivity|]).
      all: split; [intros; contradiction|].
      all: split; [intros c' _ [=]|].
      * intros c' [= <-]. auto.
      * intros c' [=].
    + eexists. split; [reflexivity|]. split; [intros; contradiction|].
      split; [intros c' _ [=] | intros c' [=]].
Qed.

Section CommandFlow.
Variable owner : Z.
Variable source_id : Z.

(** X13. A [start] whose source channel cannot be had (no identifier, not a
    text channel, or a failed fetch) is answered with the error text and
    changes nothing: a task that runs keeps running. *)
Theorem start_without_source_changes_nothing (w : bworld) (i : interaction)
    (mode : string) (out : option channel_obj) (st : bot_state) (ty msg : string) :
  is_owner owner (user_id i) = true ->
  strip (lower mode) = "start" ->
  (run (exec_bop w) (get_text_channel source_id) st).2 = Err (Exception ty msg) ->
  run_command w (archieved owner source_id i mode out) st =
    (st, [BSend ("❌ " +:+ msg) true (outcome_of (bw_send w))], bw_send w).
Proof.
  intros Hown Hmode. 
  unfold run_command, archieved, deny_if_not_owner, archieved_start, get_text_channel.
  rewrite Hown. cbn. rewrite Hmode. cbn.
  repeat (command_head; cbn).
  all: intros H; try congruence; try (injection H as <- <-); reflexivity.
Qed.

(** X14. A [start] whose output channel, the given one or else the channel
    of the interaction, is missing or not a text channel is answered with
    the notice and changes nothing. *)
Theorem start_needs_text_output (w : bworld) (i : interaction)
    (mode : string) (out : option channel_obj) (st : bot_state) (c : channel_obj) :
  is_owner owner (user_id i) = true ->
  strip (lower mode) = "start" ->
  (run (exec_bop w) (get_text_channel source_id) st).2 = Ok c ->
  (forall o, match out with Some o' => Some o' | None => i_channel i end = Some o ->
             ch_is_text o = false) ->
  run_command w (archieved owner source_id i mode out) st =
    (st, [BSend "Output must be a text channel." true (outcome_of (bw_send w))],
     bw_send w).
Proof.
  intros Hown Hmode.
  unfold run_command, archieved, deny_if_not_owner, archieved_start, get_text_channel.
  rewrite Hown. cbn. rewrite Hmode. cbn.
  repeat (command_head; cbn).
  all: intros H Hout; try congruence; try reflexivity.
  all: try (specialize (Hout _ eq_refl); congruence).
Qed.

(** What a [stop] of the owner does, by the entry of its key. *)
Lemma run_stop_eq (w : bworld) (i : interaction) (mode : string)
    (out : option channel_obj) (st : bot_state) :
  is_owner owner (user_id i) = true ->
  strip (lower mode) = "stop" ->
  let k := (default 0 (guild_id i), user_id i) in
  let st1 := {| _active_archives := delete k (_active_archives st);
                loop_tasks := loop_tasks st |} in
  run_command w (archieved owner source_id i mode out) st =
    match _active_archives st !! k with
    | Some h =>
        if task_done st h
        then (st1, [BSend "No active /archieved running." true (outcome_of (bw_send w))],
              bw_send w)
        else (task_cancel st1 h,
              [BCancel h; BSend "🛑 /archieved stopped." true (outcome_of (bw_send w))],
              bw_send w)
    | None =>
        (st1, [BSend "No active /archieved running." true (outcome_of (bw_send w))],
         bw_send w)
    end.
Proof.
  intros Hown Hmode k st1.
  unfold run_command, archieved, deny_if_not_owner, archieved_stop.
  rewrite Hown. cbn. rewrite Hmode. cbn. fold k.
  assert (Hd : forall m h,
             task_done {| _active_archives := m; loop_tasks := loop_tasks st |} h =
             task_done st h) by reflexivity.
  destruct (_active_archives st !! k) as [h|]; cbn.
  - rewrite Hd. destruct (task_done st h); cbn;
      destruct (bw_send w) as [[]|e]; reflexivity.
  - destruct (bw_send w) as [[]|e]; reflexivity.
Qed.

(** What a cancellation request leaves of a task. *)
Lemma cancel_keeps_task (l : list task) (n h : nat) (t : task) :
  l !! h = Some t ->
  exists t',
    alter (fun t0 => match t_status t0 with
                     | Done => t0
                     | _ => set_status Cancelling t0
                     end) n l !! h = Some t' /\
    t_key t' = t_key t /\ t_source t' = t_source t /\ t_out t' = t_out t /\
    (t_status t' = t_status t \/ (h = n /\ t_status t' = Cancelling)).
Proof.
  intros Ht. destruct (decide (n = h)) as [->|Hne].
  - rewrite list_lookup_alter_eq, Ht. simpl. eexists. split; [reflexivity|].
    destruct (t_status t) eqn:E; simpl; repeat split; auto.
  - rewrite list_lookup_alter_ne by exact Hne. exists t. repeat split; auto.
Qed.


(** X16. A command changes no entry of the registry but that of its own key
    and cancels no task but the one that entry held; the tasks it finds stay
    where they are, with their key and channels, and none of them changes
    its status but the cancelled one. *)
Theorem command_touches_only_its_key (w : bworld) (i : interaction)
    (mode : string) (out : option channel_obj) (st : bot_state) :
  let k := (default 0 (guild_id i), user_id i) in
  let '(st', tr, res) := run_command w (archieved owner source_id i mode out) st in
  (forall k', k' <> k -> _active_archives st' !! k' = _active_archives st !! k') /\
  (forall h, BCancel h ∈ tr -> _active_archives st !! k = Some h) /\
  (forall h t,
     loop_tasks st !! h = Some t ->
     exists t',
       loop_tasks st' !! h = Some t' /\
       t_key t' = t_key t /\ t_source t' = t_source t /\ t_out t' = t_out t /\
       (t_status t' = t_status t \/
        (_active_archives st !! k = Some h /\ t_status t' = Cancelling))).
Proof.
  intros k. subst k.
  command_cases.
  all: split;
    [ intros k' Hne; simpl;
      rewrite ?lookup_insert_ne, ?lookup_delete_ne by congruence; reflexivity |].
  all: split;
    [ intros h Hin;
      repeat (apply elem_of_cons in Hin as [Hin|Hin];
              [try discriminate Hin; injection Hin as ->;
               first [assumption | reflexivity | congruence]|]);
      apply elem_of_nil in Hin; contradiction |].
  all: intros h t Ht; simpl.
  all: try (exists t; repeat split; auto; fail).
  all: try (match goal with
            | |- context [alter _ ?m (loop_tasks _)] =>
                destruct (cancel_keeps_task _ m h t Ht)
                  as (t' & Ht' & Hk & Hs & Ho & Hst)
            end;
            exists t';
            split; [first [exact Ht' | apply lookup_app_l_Some; exact Ht']|];
            split; [exact Hk|]; split; [exact Hs|]; split; [exact Ho|];
            destruct Hst as [Hst | [-> Hst]];
            [left; exact Hst | right; split; [congruence | exact Hst]]; fail).
  all: exists t; repeat split; auto; apply lookup_app_l_Some; exact Ht.
Qed.



(** X20. A second [stop] finds nothing to stop: it reports so, cancels no
    task and leaves the state of the first [stop] as it is. *)
Theorem stop_twice (w1 w2 : bworld) (i : interaction) (m1 m2 : string)
    (out1 out2 : option channel_obj) (st : bot_state) :
  is_owner owner (user_id i) = true ->
  strip (lower m1) = "stop" ->
  strip (lower m2) = "stop" ->
  let '(st1, tr1, r1) := run_command w1 (archieved owner source_id i m1 out1) st in
  run_command w2 (archieved owner source_id i m2 out2) st1 =
    (st1, [BSend "No active /archieved running." true (outcome_of (bw_send w2))],
     bw_send w2).
Proof.
  intros Hown H1 H2.
  pose proof (run_stop_eq w1 i m1 out1 st Hown H1) as E1. cbv zeta in E1.
  rewrite E1.
  assert (Hagain : forall st1,
    _active_archives st1 !! (default 0 (guild_id i), user_id i) = None ->
    run_command w2 (archieved owner source_id i m2 out2) st1 =
      (st1, [BSend "No active /archieved running." true (outcome_of (bw_send w2))],
       bw_send w2)).
  { intros st1 Hnone.
    pose proof (run_stop_eq w2 i m2 out2 st1 Hown H2) as E2. cbv zeta in E2.
    rewrite E2, Hnone. rewrite delete_id by exact Hnone.
    destruct st1; reflexivity. }
  destruct (_active_archives st !! (default 0 (guild_id i), user_id i)) as [h|];
    [destruct (task_done st h)|]; apply Hagain; apply lookup_delete_eq.
Qed.

End CommandFlow.

(** * Start-up *)




(** * Instances of the further properties *)

Lemma find_latest_image_window_witness :
  run (exec_rop (world_of (replicate 30 msg_A ++ [msg_B]) (Ok tt)))
      (find_latest_image sample_fmt) None =
    (None, [(CHistory 30, Returned)], Ok (None, None)).
Proof.
  refine (proj2 (find_latest_image_window sample_fmt
                   (world_of (replicate 30 msg_A ++ [msg_B]) (Ok tt))
                   (world_of (replicate 30 msg_A) (Ok tt))
                   (replicate 30 msg_A) [msg_B] None eq_refl eq_refl eq_refl) _).
  apply Forall_replicate. split; constructor.
Defined.

Lemma nothing_found_only_sleeps_witness :
  run_cycle sample_fmt (world_of [msg_blank; msg_B] (Ok tt)) None =
    (None, [(CHistory 30, Returned); (CSleep POLL_SECONDS, Returned)], Ok FContinue).
Proof.
  exact (nothing_found_only_sleeps sample_fmt (world_of [msg_blank; msg_B] (Ok tt))
           None [msg_blank; msg_B] (Some "4:0:") (Some "") eq_refl eq_refl
           (or_intror eq_refl)).
Defined.

Lemma archive_post_passes_bytes_through_witness :
  archive_caption = archive_caption /\
  exists sig url img,
    sees sample_fmt world_ok sig url /\
    w_read world_ok = Ok img /\
    ("archived.png", []) = ("archived.png", img) /\
    [(CHistory 30, Returned); (CGet "x.png", Returned);
     (CRaiseForStatus, Returned); (CRead, Returned)] =
    [(CHistory 30, Returned); (CGet url, Returned);
     (CRaiseForStatus, Returned); (CRead, Returned)].
Proof.
  exact (archive_post_passes_bytes_through sample_fmt world_ok None
           [(CHistory 30, Returned); (CGet "x.png", Returned);
            (CRaiseForStatus, Returned); (CRead, Returned)]
           [(CSleep POLL_SECONDS, Returned)]
           archive_caption ("archived.png", []) Returned eq_refl).
Defined.

Lemma error_status_is_not_posted_witness :
  let '(ls', tr, res) := run_cycle sample_fmt world_error_status None in
  ls' = None /\ count_calls is_read tr = 0%nat /\
  count_calls is_archive_post tr = 0%nat.
Proof.
  assert (Hsees : sees sample_fmt world_error_status "2:0:x.png" "x.png").
  { exists [msg_A; msg_B]. split; reflexivity. }
  assert (Hne : (None : option string) <> Some "2:0:x.png") by discriminate.
  assert (Hst : 400 <= 404) by lia.
  pose proof (error_status_is_not_posted sample_fmt world_error_status None
                "2:0:x.png" "x.png" _ Hsees eq_refl Hne eq_refl Hst) as H.
  destruct (run_cycle sample_fmt world_error_status None) as [[ls' tr] res].
  destruct H as (H1 & H2 & H3 & _). repeat split; assumption.
Defined.

Lemma same_image_posted_once_witness :
  let '(ls', tr, st) :=
    runner_loop sample_fmt [world_ok; world_post_fails; world_ok] None in
  ls' = Some "2:0:x.png" /\ count_calls is_send tr = 1%nat.
Proof.
  assert (Hsees : forall post, sees sample_fmt (world_of [msg_A; msg_B] post)
                                 "2:0:x.png" "x.png").
  { intros post. exists [msg_A; msg_B]. split; reflexivity. }
  assert (Hall : Forall (fun w' => sees sample_fmt w' "2:0:x.png" "x.png")
                   [world_ok; world_post_fails; world_ok]).
  { repeat constructor; apply Hsees. }
  assert (Hok : fetch_and_post_ok world_ok).
  { exists resp_ok, []. repeat split; reflexivity. }
  assert (Hne : (None : option string) <> Some "2:0:x.png") by discriminate.
  pose proof (same_image_posted_once sample_fmt world_ok [world_post_fails; world_ok]
                None "2:0:x.png" "x.png" Hall Hok eq_refl Hne) as H.
  destruct (runner_loop sample_fmt [world_ok; world_post_fails; world_ok] None)
    as [[ls' tr] st].
  destruct H as (H1 & H2 & _). split; assumption.
Defined.


Lemma mode_is_trimmed_and_case_blind_witness :
  archieved 42 9 owner_call ("  " +:+ "StOp" +:+ String "010" " ") None =
    archieved 42 9 owner_call "stop" None.
Proof.
  exact (mode_is_trimmed_and_case_blind 42 9 owner_call "  " "StOp"
           (String "010" " ") "stop" None eq_refl eq_refl eq_refl).
Defined.

Lemma start_without_source_changes_nothing_witness :
  run_command bworld_ok (archieved 42 0 owner_call "start" None) one_running =
    (one_running, [BSend ("❌ " +:+ "SOURCE_CHANNEL_ID not set.") true Returned], Ok tt).
Proof.
  exact (start_without_source_changes_nothing 42 0 bworld_ok owner_call "start" None
           one_running "RuntimeError" "SOURCE_CHANNEL_ID not set."
           eq_refl eq_refl eq_refl).
Defined.

Lemma start_needs_text_output_witness :
  run_command bworld_ok (archieved 42 9 owner_call "start" (Some voice_channel))
    one_running =
    (one_running, [BSend "Output must be a text channel." true Returned], Ok tt).
Proof.
  refine (start_needs_text_output 42 9 bworld_ok owner_call "start"
            (Some voice_channel) one_running {| ch_id := 9; ch_is_text := true |}
            eq_refl eq_refl eq_refl _).
  intros o [= <-]. reflexivity.
Defined.



Lemma start_creates_the_only_live_task_witness :
  length (live_tasks
    (run_command bworld_ok (archieved 42 9 owner_call "start" None) one_running).1.1
    (7, 42)) = 1%nat.
Proof.
  assert (Htr : tracked one_running).
  { intros [|h] t Ht Hs; [|destruct h; discriminate Ht].
    injection Ht as <-. reflexivity. }
  pose proof (start_creates_the_only_live_task 42 9 bworld_ok owner_call "start"
                None one_running Htr) as H.
  cbv zeta in H.
  destruct (run_command bworld_ok (archieved 42 9 owner_call "start" None) one_running)
    as [[st' tr] res] eqn:E.
  apply (H 1%nat).
  vm_compute in E. injection E as _ <- _. right. right. left.
Defined.


Lemma stop_twice_witness :
  run_command bworld_ok (archieved 42 9 owner_call "stop" None)
    (run_command bworld_ok (archieved 42 9 owner_call "stop" None) one_running).1.1 =
    ((run_command bworld_ok (archieved 42 9 owner_call "stop" None) one_running).1.1,
     [BSend "No active /archieved running." true Returned], Ok tt).
Proof.
  pose proof (stop_twice 42 9 bworld_ok bworld_ok owner_call "stop" "stop"
                None None one_running eq_refl eq_refl eq_refl) as H.
  destruct (run_command bworld_ok (archieved 42 9 owner_call "stop" None) one_running)
    as [[st1 tr1] r1].
  exact H.
Defined.

(** * The task a start creates *)

(** X22. A [start] of the owner with a source channel, a text output
    channel (the given one, or else the channel of the interaction) and a
    delivered answer creates one task, live, under the key, for that source
    and that output, and registers it; the answer names both channels. *)
Theorem start_registers_new_task (owner source_id : Z) (w : bworld)
    (i : interaction) (mode : string) (out : option channel_obj) (st : bot_state)
    (c o : channel_obj) :
  is_owner owner (user_id i) = true ->
  strip (lower mode) = "start" ->
  (run (exec_bop w) (get_text_channel source_id) st).2 = Ok c ->
  match out with Some o' => Some o' | None => i_channel i end = Some o ->
  ch_is_text o = true ->
  bw_send w = Ok tt ->
  let k := (default 0 (guild_id i), user_id i) in
  let h := length (loop_tasks st) in
  let '(st', tr, res) := run_command w (archieved owner source_id i mode out) st in
  res = Ok tt /\
  _active_archives st' !! k = Some h /\
  loop_tasks st' !! h =
    Some {| t_key := k; t_source := c; t_out := o; t_status := Pending |} /\
  length (loop_tasks st') = S h /\
  exists pre, tr = pre ++ [BSend (started_text c o) true Returned; BCreate h] /\
              (pre = [] \/ exists old, pre = [BCancel old] /\
                                       _active_archives st !! k = Some old).
Proof.
  intros Hown Hmode Hsrc Hout Htext Hsend k h. subst k h.
  revert Hsrc Hout.
  unfold run_command, archieved, deny_if_not_owner, archieved_start, get_text_channel.
  rewrite Hown. cbn. rewrite Hmode. cbn.
  repeat (command_head; cbn).
  all: intros Hsrc Hout; try congruence.
  all: simplify_eq/=.
  all: split; [reflexivity|].
  all: split; [rewrite ?length_alter; apply lookup_insert_eq|].
  all: split;
    [ first [ apply list_lookup_middle; rewrite ?length_alter; reflexivity
            | rewrite <- (length_alter
                (fun t : task => match t_status t with
                                 | Done => t
                                 | _ => set_status Cancelling t
                                 end) _ n);
              apply list_lookup_middle; reflexivity ] |].
  all: split; [rewrite length_app, ?length_alter; simpl; lia|].
  all: first
    [ exists []; split; [rewrite ?length_alter; reflexivity | left; reflexivity]
    | eexists [_]; split; [rewrite ?length_alter; reflexivity|];
      right; eexists; split; [reflexivity | congruence] ].
Qed.

Lemma start_registers_new_task_witness :
  let '(st', tr, res) :=
    run_command bworld_ok (archieved 42 9 owner_call "start" None) one_running in
  _active_archives st' !! (7, 42) = Some 1%nat /\
  loop_tasks st' !! 1%nat =
    Some {| t_key := (7, 42);
            t_source := {| ch_id := 9; ch_is_text := true |};
            t_out := {| ch_id := 5; ch_is_text := true |};
            t_status := Pending |}.
Proof.
  pose proof (start_registers_new_task 42 9 bworld_ok owner_call "start" None
                one_running {| ch_id := 9; ch_is_text := true |}
                {| ch_id := 5; ch_is_text := true |}
                eq_refl eq_refl eq_refl eq_refl eq_refl eq_refl) as H.
  cbv zeta in H.
  destruct (run_command bworld_ok (archieved 42 9 owner_call "start" None) one_running)
    as [[st' tr] res].
  destruct H as (_ & H1 & H2 & _). split; assumption.
Defined.
